(** * The recursive text splitter (src/job.ts), embedded and verified

    [processJob] performs one step of a recursive job: it reads a record,
    halves every text segment longer than [MIN_SEGMENT_LENGTH], writes the
    new segments back with a conditional (expect_tip) write and reports
    whether another step is needed.

    The pure part (lengths, [slice], the [every] test and the [for ... of]
    loop) is embedded as functions on lists.  The asynchronous part is
    embedded as a program over the four calls the function makes (log,
    fetchTarget, GET tip, PUT entity); programs are then run against
    arbitrary responses ([behaves]) and against a model of the record
    store ([exec]).  The same is done for the loop of the end-to-end test,
    the verification endpoint of src/index.ts and two functions of the
    registration script. *)

From Stdlib Require Import ZArith NArith Ascii String List Lia.
From stdpp Require Import base option list strings gmap.

Local Open Scope nat_scope.

(** ** JavaScript values used by the job *)

Module JS.

(** A JavaScript string is a sequence of UTF-16 code units; [length]
    counts code units and [slice] cuts between them. *)
Definition code_unit : Type := N.
Definition jsstring : Type := list code_unit.

(** A literal of the source, read as code units. *)
Definition str (s : string) : jsstring :=
  (fun a => N_of_ascii a) <$> list_ascii_of_string s.

(** ['A'.repeat(n)]. *)
Definition repeat_unit (c : code_unit) (n : nat) : jsstring := replicate n c.

(** [s.slice(start, end)] for non-negative indices. *)
Definition slice (s : jsstring) (start end_ : nat) : jsstring :=
  take (end_ - start) (drop start s).

(** [s.slice(start)] for a non-negative index. *)
Definition slice_from (s : jsstring) (start : nat) : jsstring :=
  drop start s.

(** [Math.floor(a / b)] on non-negative integers. *)
Definition floor_div (a b : nat) : nat := a / b.

(** Values of type [unknown]: what a record may carry under the keys the
    job does not interpret, and what log entries and API errors hold. *)
#[local] Unset Elimination Schemes.
Inductive json : Type :=
| JNull
| JBool (b : bool)
| JNum (n : Z)
| JStr (s : jsstring)
| JArr (items : list json)
| JObj (fields : list (string * json)).
#[local] Set Elimination Schemes.

(** [a ?? b]. *)
Definition nullish {A} (a : option A) (b : A) : A :=
  match a with Some v => v | None => b end.

(** [!o] for a value that is an object or [undefined]. *)
Definition absent {A} (o : option A) : bool :=
  match o with Some _ => false | None => true end.

(** Truthiness of a string: the empty string is the only falsy one. *)
Definition truthy_string (s : jsstring) : bool :=
  match s with [] => false | _ :: _ => true end.

(** Truthiness of a value: [null], [false], [0] and the empty string are
    falsy, every array and object is truthy. *)
Definition truthy (v : json) : bool :=
  match v with
  | JNull => false
  | JBool b => b
  | JNum n => negb (n =? 0)%Z
  | JStr s => truthy_string s
  | JArr _ | JObj _ => true
  end.

(** Truthiness of a value that may be [undefined]. *)
Definition truthy_opt (o : option json) : bool :=
  match o with Some v => truthy v | None => false end.

(** 2^53: up to it every integer is a double. *)
Definition two53 : Z := 9007199254740992.

(** [Number.isSafeInteger(n)]. *)
Definition safe_integer (n : Z) : Prop :=
  (- (two53 - 1) <= n <= two53 - 1)%Z.

(** The double nearest to an integer, ties going to the even significand
    (for integers below the overflow to Infinity). *)
Definition to_double (s : Z) : Z :=
  let m := Z.abs s in
  if (m <=? two53)%Z then s
  else
    let q := (2 ^ (Z.log2 m - 52))%Z in
    let lo := (m / q * q)%Z in
    let r := (m - lo)%Z in
    let up := if (2 * r <? q)%Z then false
              else if (q <? 2 * r)%Z then true
              else Z.odd (m / q) in
    (Z.sgn s * (if up then lo + q else lo))%Z.

(** [a + b] on numbers that hold integers. *)
Definition js_add (a b : Z) : Z := to_double (a + b).

End JS.

Import JS.

(** ** src/types.ts *)

(** [SplitterTargetProps]: four optional typed fields and an index
    signature for any additional property, kept in [extra] under its key.
    The two numbers hold integers (a count of rounds and a recursion
    depth); adding to them is [js_add]. *)
Record SplitterTargetProps : Type := mkProps {
  text : option jsstring;
  segments : option (list jsstring);
  split_count : option Z;
  last_split_depth : option Z;
  extra : gmap string json
}.

(** The record seen as the JavaScript object it is: the value under a key. *)
Definition prop_lookup (p : SplitterTargetProps) (key : string) : option json :=
  if String.eqb key "text" then JStr <$> text p
  else if String.eqb key "segments" then (fun l => JArr (JStr <$> l)) <$> segments p
  else if String.eqb key "split_count" then JNum <$> split_count p
  else if String.eqb key "last_split_depth" then JNum <$> last_split_depth p
  else extra p !! key.

(** ** src/job.ts: the pure part *)

Definition MIN_SEGMENT_LENGTH : nat := 10.

(** Lines 32-36: the working segment sequence,
    [if (!segments || segments.length === 0)] with [text ?? ''] and
    [text ? [text] : []]. *)
Definition working_segments (properties : SplitterTargetProps) : list jsstring :=
  let segs := segments properties in
  if absent segs || (length (nullish segs []) =? 0) then
    let text := nullish (text properties) [] in
    if truthy_string text then [text] else []
  else nullish segs [].

(** Line 45: [segments.every((s) => s.length <= MIN_SEGMENT_LENGTH)]. *)
Definition allDone (segs : list jsstring) : bool :=
  forallb (fun s => length s <=? MIN_SEGMENT_LENGTH) segs.

(** Lines 62-72: the body of the [for ... of] loop, on the pair
    (newSegments, splitsMade). *)
Definition split_body (acc : list jsstring * nat) (segment : jsstring)
  : list jsstring * nat :=
  let '(newSegments, splitsMade) := acc in
  if MIN_SEGMENT_LENGTH <? length segment then
    let mid := floor_div (length segment) 2 in
    (newSegments ++ [slice segment 0 mid; slice_from segment mid], S splitsMade)
  else
    (newSegments ++ [segment], splitsMade).

(** Lines 59-72: the loop, from the empty array and zero. *)
Definition split_round (segs : list jsstring) : list jsstring * nat :=
  fold_left split_body segs ([], 0).

(** Line 41: the [maxLength] logged. *)
Definition maxLength (segs : list jsstring) : nat :=
  if 0 <? length segs then max_list (length <$> segs) else 0.

(** Running the round [n] times on its own output. *)
Fixpoint rounds (n : nat) (segs : list jsstring) : list jsstring :=
  match n with
  | 0 => segs
  | S n' => rounds n' (fst (split_round segs))
  end.

(** ** The round as the specification words it *)

(** The two contiguous halves of a segment, cut at [floor(length / 2)]. *)
Definition halves (s : jsstring) : list jsstring :=
  [take (length s / 2) s; drop (length s / 2) s].

(** What one input segment contributes to the output of a round. *)
Definition pieces (s : jsstring) : list jsstring :=
  if decide (MIN_SEGMENT_LENGTH < length s) then halves s else [s].

Definition over_threshold (s : jsstring) : Prop := MIN_SEGMENT_LENGTH < length s.

#[local] Instance over_threshold_dec s : Decision (over_threshold s).
Proof. unfold over_threshold. apply _. Defined.

(** The number of rounds the specification allows: the least [k] with
    [m <= 10 * 2 ^ k], that is the ceiling of [log2 (m / 10)] where that is
    not negative, and zero otherwise. *)
Definition rounds_bound (m : nat) : nat :=
  Nat.log2_up ((m + (MIN_SEGMENT_LENGTH - 1)) / MIN_SEGMENT_LENGTH).

(** ** The calls [processJob] makes *)

Record KladosRequest : Type := { target_entity : string }.

(** The part of [KladosJob] the function reads. *)
Record KladosJob : Type := { recurseDepth : Z; request : KladosRequest }.

(** What [job.fetchTarget()] resolves to. *)
Record Entity : Type := { id : string; properties : SplitterTargetProps }.

(** One item of the returned array. *)
Record Output : Type := { entity_id : string; done : bool }.

Definition api_error : Type := json.

(** The version token ([tip.cid]), opaque to the job: here the revision
    the record is at. *)
Record Tip : Type := { cid : nat }.

(** [{ data, error }] of [GET /entities/{id}/tip]. *)
Record TipResponse : Type := { tip_data : option Tip; tip_error : option api_error }.

(** The body of [PUT /entities/{id}]. *)
Record PutBody : Type := { expect_tip : nat; put_properties : SplitterTargetProps }.

(** [{ error }] of [PUT /entities/{id}]. *)
Record PutResponse : Type := { put_error : option api_error }.

Inductive log_level : Type := LevelInfo | LevelSuccess.

Record LogEntry : Type :=
  { level : log_level; message : string; data : list (string * json) }.

(** What the function can reject with: a rejection of [fetchTarget] passed
    on, [new Error(message + JSON.stringify(detail))], or the RangeError of
    a call given more arguments than the engine takes. *)
Inductive exn : Type :=
| Rejected (reason : api_error)
| Error (message : string) (detail : option api_error)
| RangeError.

(** Programs over the calls: each call carries the continuation that
    receives its response. *)
Inductive prog (R : Type) : Type :=
| Ret (r : R)
| Throw (e : exn)
| Log (entry : LogEntry) (k : prog R)
| FetchTarget (target : string) (k : api_error + Entity -> prog R)
| GetTip (rid : string) (k : TipResponse -> prog R)
| PutEntity (rid : string) (body : PutBody) (k : PutResponse -> prog R).

Arguments Ret {R} r.
Arguments Throw {R} e.
Arguments Log {R} entry k.
Arguments FetchTarget {R} target k.
Arguments GetTip {R} rid k.
Arguments PutEntity {R} rid body k.

Fixpoint bind {A B} (m : prog A) (f : A -> prog B) : prog B :=
  match m with
  | Ret r => f r
  | Throw e => Throw e
  | Log entry k => Log entry (bind k f)
  | FetchTarget target k => FetchTarget target (fun r => bind (k r) f)
  | GetTip rid k => GetTip rid (fun r => bind (k r) f)
  | PutEntity rid body k => PutEntity rid body (fun r => bind (k r) f)
  end.

#[export] Instance prog_ret : MRet prog := fun _ r => Ret r.
#[export] Instance prog_bind : MBind prog := fun _ _ f m => bind m f.

Definition throw {R} (e : exn) : prog R := Throw e.

Definition log_info (msg : string) (d : list (string * json)) : prog unit :=
  Log {| level := LevelInfo; message := msg; data := d |} (Ret tt).

Definition log_success (msg : string) (d : list (string * json)) : prog unit :=
  Log {| level := LevelSuccess; message := msg; data := d |} (Ret tt).

(** [await job.fetchTarget()]: a rejection is passed on. *)
Definition fetchTarget (job : KladosJob) : prog Entity :=
  FetchTarget (target_entity (request job))
    (fun r => match r with inl e => Throw (Rejected e) | inr t => Ret t end).

Definition api_GET_tip (rid : string) : prog TipResponse := GetTip rid Ret.

Definition api_PUT (rid : string) (body : PutBody) : prog PutResponse :=
  PutEntity rid body Ret.

Definition jnat (n : nat) : json := JNum (Z.of_nat n).

(** ** Running a program *)

(** What an observer of one invocation sees: each call with its response. *)
Inductive obs : Type :=
| OLog (entry : LogEntry)
| OFetch (target : string) (r : api_error + Entity)
| OTip (rid : string) (r : TipResponse)
| OPut (rid : string) (body : PutBody) (r : PutResponse).

Definition outcome (R : Type) : Type := exn + R.

(** [behaves p tr o]: against some responses, [p] makes the calls [tr] and
    ends in [o].  Nothing is assumed of the responses. *)
Inductive behaves {R} : prog R -> list obs -> outcome R -> Prop :=
| behaves_ret r : behaves (Ret r) [] (inr r)
| behaves_throw e : behaves (Throw e) [] (inl e)
| behaves_log entry k tr o :
    behaves k tr o -> behaves (Log entry k) (OLog entry :: tr) o
| behaves_fetch target k r tr o :
    behaves (k r) tr o -> behaves (FetchTarget target k) (OFetch target r :: tr) o
| behaves_tip rid k r tr o :
    behaves (k r) tr o -> behaves (GetTip rid k) (OTip rid r :: tr) o
| behaves_put rid body k r tr o :
    behaves (k r) tr o -> behaves (PutEntity rid body k) (OPut rid body r :: tr) o.

Definition is_log (o : obs) : bool :=
  match o with OLog _ => true | _ => false end.

Definition is_write (o : obs) : bool :=
  match o with OPut _ _ _ => true | _ => false end.

Definition is_tip_fetch (o : obs) : bool :=
  match o with OTip _ _ => true | _ => false end.

(** The calls to the record store, without the log entries. *)
Definition store_calls (tr : list obs) : list obs :=
  filter (fun o => is_log o = false) tr.

(** Line 79, [if (tipError || !tip)]: the tip the function goes on with,
    when the error is falsy and the tip is there. *)
Definition tip_ok (r : TipResponse) : option Tip :=
  if truthy_opt (tip_error r) then None else tip_data r.

(** The properties the function writes, from the entity it read. *)
Definition written_properties (job : KladosJob) (target : Entity)
  : SplitterTargetProps :=
  {| text := text (properties target);
     segments := Some (fst (split_round (working_segments (properties target))));
     split_count := Some (js_add (nullish (split_count (properties target)) 0%Z) 1%Z);
     last_split_depth := Some (recurseDepth job);
     extra := extra (properties target) |}.

(** ** The record store *)

(** Modelled from the spec: the external record store (section 6,
    read-current-state and conditional-write), which is a service and not
    part of the sources.  One record lives at [rec_id]; its version token
    is its revision number, which every applied write advances; a
    conditional write applies in full when the expected token is the
    current one and is rejected without effect otherwise; any call may also
    fail without effect. *)
Record Store : Type :=
  { rec_id : string; rec_cid : nat; rec_props : SplitterTargetProps }.

Definition not_found : api_error := JObj [("status", JNum 404)].
Definition conflict : api_error := JObj [("status", JNum 409)].

(** Modelled from the spec: a write by someone else (section 5, concurrent
    invocations and writers); it advances the revision. *)
Definition concurrent_write (st : Store) (p : SplitterTargetProps) : Store :=
  {| rec_id := rec_id st; rec_cid := S (rec_cid st); rec_props := p |}.

(** Modelled from the spec: read-current-state(id), the record's id and
    properties, or an error. *)
Definition serve_fetch (st : Store) (target : string) (fault : option api_error)
  : api_error + Entity :=
  match fault with
  | Some e => inl e
  | None =>
      if decide (target = rec_id st)
      then inr {| id := rec_id st; properties := rec_props st |}
      else inl not_found
  end.

(** Modelled from the spec: the read of the current version token, or an
    error. *)
Definition serve_tip (st : Store) (rid : string) (fault : option api_error)
  : TipResponse :=
  match fault with
  | Some e => {| tip_data := None; tip_error := Some e |}
  | None =>
      if decide (rid = rec_id st)
      then {| tip_data := Some {| cid := rec_cid st |}; tip_error := None |}
      else {| tip_data := None; tip_error := Some not_found |}
  end.

(** Modelled from the spec: conditional-write(id, expected version token,
    new properties), success or conflict-error; an accepted write replaces
    the properties and advances the revision, a rejected or failed one
    leaves the record as it was. *)
Definition serve_put (st : Store) (rid : string) (body : PutBody)
    (fault : option api_error) : Store * PutResponse :=
  match fault with
  | Some e => (st, {| put_error := Some e |})
  | None =>
      if decide (rid = rec_id st) then
        if decide (expect_tip body = rec_cid st) then
          ({| rec_id := rec_id st; rec_cid := S (rec_cid st);
              rec_props := put_properties body |},
           {| put_error := None |})
        else (st, {| put_error := Some conflict |})
      else (st, {| put_error := Some not_found |})
  end.

(** What happens around one call to the store: the writes of others that
    land before it is served, and whether the call itself fails; [fault]
    is then the error it is answered with, which may be any value, a falsy
    one included. *)
Record turn : Type :=
  { interference : list SplitterTargetProps; fault : option api_error }.

Definition quiet : turn := {| interference := []; fault := None |}.

Definition next_turn (sched : list turn) : turn * list turn :=
  match sched with
  | [] => (quiet, [])
  | t :: rest => (t, rest)
  end.

Definition disturb (st : Store) (t : turn) : Store :=
  fold_left concurrent_write (interference t) st.

(** One invocation against the store under a schedule.  The trace pairs
    each call with the revision the record was at when it was served. *)
Fixpoint exec {R} (p : prog R) (sched : list turn) (st : Store)
  : Store * list (nat * obs) * outcome R :=
  match p with
  | Ret r => (st, [], inr r)
  | Throw e => (st, [], inl e)
  | Log entry k =>
      let '(st', tr, o) := exec k sched st in
      (st', (rec_cid st, OLog entry) :: tr, o)
  | FetchTarget target k =>
      let '(t, rest) := next_turn sched in
      let st1 := disturb st t in
      let r := serve_fetch st1 target (fault t) in
      let '(st', tr, o) := exec (k r) rest st1 in
      (st', (rec_cid st1, OFetch target r) :: tr, o)
  | GetTip rid k =>
      let '(t, rest) := next_turn sched in
      let st1 := disturb st t in
      let r := serve_tip st1 rid (fault t) in
      let '(st', tr, o) := exec (k r) rest st1 in
      (st', (rec_cid st1, OTip rid r) :: tr, o)
  | PutEntity rid body k =>
      let '(t, rest) := next_turn sched in
      let st1 := disturb st t in
      let '(st2, r) := serve_put st1 rid body (fault t) in
      let '(st', tr, o) := exec (k r) rest st2 in
      (st', (rec_cid st1, OPut rid body r) :: tr, o)
  end.

(** A schedule in which nobody else writes. *)
Definition alone (sched : list turn) : Prop :=
  Forall (fun t => interference t = []) sched.

Definition final_store {R} (x : Store * list (nat * obs) * outcome R) : Store :=
  fst (fst x).
Definition trace_of {R} (x : Store * list (nat * obs) * outcome R) : list (nat * obs) :=
  snd (fst x).
Definition outcome_of {R} (x : Store * list (nat * obs) * outcome R) : outcome R :=
  snd x.

(** ** The scenarios of the tests *)

Definition fresh_record (t : jsstring) : Store :=
  {| rec_id := "entity";
     rec_cid := 0;
     rec_props :=
       {| text := Some t; segments := None; split_count := None;
          last_split_depth := None;
          extra := {[ "label" := JStr (str "Recurse Test Entity") ]} |} |}.

Definition direct_job : KladosJob :=
  {| recurseDepth := 0; request := {| target_entity := "entity" |} |}.

(** The turn that goes with the [n]-th call to the store. *)
Definition turn_at (n : nat) (sched : list turn) : turn := nth n sched quiet.

(** The calls to the store in a trace of [exec], with their revisions. *)
Definition store_trace (tr : list (nat * obs)) : list (nat * obs) :=
  filter (fun c => is_log (snd c) = false) tr.

Definition unit_A : code_unit := 65%N.

(** The record of the second test: nothing to split. *)
Definition small_record : Store := fresh_record (str "SMALL").

(** The record of the first test: 80 characters. *)
Definition long_record : Store := fresh_record (repeat_unit unit_A 80).

(** A JavaScript engine for the examples: one that takes up to 65535
    arguments in a call. *)
Definition example_limit : nat := Z.to_nat 65535.

(** ** Revisions seen by one invocation *)

Definition is_fetch (o : obs) : bool :=
  match o with OFetch _ _ => true | _ => false end.

Definition is_applied_write (o : obs) : bool :=
  match o with
  | OPut _ _ u => match put_error u with None => true | Some _ => false end
  | _ => false
  end.

(** The revision the record was at when the first call selected by [sel]
    was served. *)
Definition revision_of (sel : obs -> bool) (tr : list (nat * obs)) : option nat :=
  fst <$> head (filter (fun c => sel (snd c) = true) tr).

(** The revision whose properties the invocation read and split. *)
Definition read_revision := revision_of is_fetch.
(** The revision at which the version token was fetched. *)
Definition token_revision := revision_of is_tip_fetch.
(** The revision the record was at when the write was applied. *)
Definition write_revision := revision_of is_applied_write.

(** A write by someone else, landing between the read and the tip fetch. *)
Definition others_props : SplitterTargetProps :=
  {| text := Some (str "rewritten by someone else");
     segments := Some [str "rewritten"; str "by"; str "someone else"];
     split_count := Some 7%Z;
     last_split_depth := None;
     extra := ∅ |}.

Definition write_before_tip : list turn :=
  [quiet; {| interference := [others_props]; fault := None |}].

Definition write_before_put : list turn :=
  [quiet; quiet; {| interference := [others_props]; fault := None |}].

Definition tip_unavailable : list turn :=
  [quiet; {| interference := []; fault := Some (JObj [("status", JNum 503)]) |}].

(** The write is not applied and is answered with the empty string as its
    error: [{ error: '' }]. *)
Definition write_answered_empty : list turn :=
  [quiet; quiet; {| interference := []; fault := Some (JStr []) |}].

(** ** A record without the depth stamp *)

Definition forget_depth (p : SplitterTargetProps) : SplitterTargetProps :=
  {| text := text p; segments := segments p; split_count := split_count p;
     last_split_depth := None; extra := extra p |}.

Definition forget_depth_obs (o : obs) : obs :=
  match o with
  | OPut rid body u =>
      OPut rid {| expect_tip := expect_tip body;
                  put_properties := forget_depth (put_properties body) |} u
  | _ => o
  end.

(** An entity the worker is done with, as it is left after three rounds. *)
Definition finished_record : Store :=
  {| rec_id := "entity"; rec_cid := 3;
     rec_props :=
       {| text := Some (repeat_unit unit_A 20);
          segments := Some [repeat_unit unit_A 10; repeat_unit unit_A 10];
          split_count := Some 3%Z; last_split_depth := Some 0%Z;
          extra := ∅ |} |}.

(** ** src/index.ts: the endpoints that answer at once *)

(** [Env] of src/types.ts: the bindings of the worker. *)
Record Env : Type := {
  AGENT_ID : jsstring;
  AGENT_VERSION : jsstring;
  ARKE_AGENT_KEY : jsstring;
  VERIFICATION_TOKEN : option jsstring;
  ARKE_VERIFY_AGENT_ID : option jsstring
}.

(** [c.json(body, status)]; the status is 200 when none is given. *)
Record Response : Type := { status : nat; body : json }.

(** [a || b] for an optional string and a string. *)
Definition or_else (a : option jsstring) (b : jsstring) : jsstring :=
  match a with
  | Some s => if truthy_string s then s else b
  | None => b
  end.

(** [!s] for an optional string. *)
Definition not_string (s : option jsstring) : bool :=
  match s with
  | Some s => negb (truthy_string s)
  | None => true
  end.

(** Lines 25-31: [GET /health]. *)
Definition health (env : Env) : Response :=
  {| status := 200;
     body := JObj [("status", JStr (str "ok"));
                   ("agent_id", JStr (AGENT_ID env));
                   ("version", JStr (AGENT_VERSION env))] |}.

(** Lines 37-49: [GET /.well-known/arke-verification]. *)
Definition arke_verification (env : Env) : Response :=
  let token := VERIFICATION_TOKEN env in
  let kladosId := or_else (ARKE_VERIFY_AGENT_ID env) (AGENT_ID env) in
  if not_string token || not_string (Some kladosId) then
    {| status := 500;
       body := JObj [("error", JStr (str "Verification not configured"))] |}
  else
    {| status := 200;
       body := JObj [("verification_token", JStr (nullish token []));
                     ("klados_id", JStr kladosId)] |}.

Definition with_agent_key (env : Env) (key : jsstring) : Env :=
  {| AGENT_ID := AGENT_ID env; AGENT_VERSION := AGENT_VERSION env;
     ARKE_AGENT_KEY := key; VERIFICATION_TOKEN := VERIFICATION_TOKEN env;
     ARKE_VERIFY_AGENT_ID := ARKE_VERIFY_AGENT_ID env |}.

(** A worker registered and verified under its own id. *)
Definition registered_env : Env :=
  {| AGENT_ID := str "klados_1"; AGENT_VERSION := str "1.0.0";
     ARKE_AGENT_KEY := str "ak_secret";
     VERIFICATION_TOKEN := Some (str "vt_1");
     ARKE_VERIFY_AGENT_ID := Some [] |}.

(** ** scripts/register.ts: [substituteEnvVars] *)

Module Register.

Section WithNumbers.

(** Numbers are passed through untouched: what they are is left open. *)
Variable number : Type.

(** What [JSON.parse] returns, and what [substituteEnvVars] makes of it.
    An object that is read is the list of its own properties in the order
    [Object.entries] gives them; an object that is built is the list of
    its own properties in the order they were first assigned.
    [VInherited name] is no JSON: it is the function or object that
    [process.env] inherits under [name]. *)
#[local] Unset Elimination Schemes.
Inductive value : Type :=
| VNull
| VBool (b : bool)
| VNum (x : number)
| VStr (s : jsstring)
| VArr (items : list value)
| VObj (fields : list (jsstring * value))
| VInherited (name : jsstring).
#[local] Set Elimination Schemes.

(** [new Error(`Environment variable ${envVar} is not set`)]. *)
Inductive env_error : Type := NotSet (envVar : jsstring).

(** The variables of the environment: [process.env[name]] is the string
    [env name] gives. *)
Variable env : jsstring -> option jsstring.

(** For a name that is no variable, [process.env[name]] is what the
    object inherits from its prototype ([toString], [constructor],
    [hasOwnProperty], ...), a function or an object and so truthy, and
    undefined when there is no such property.  [inherited name] is the
    string such a value converts to where it is used as a property key. *)
Variable inherited : jsstring -> option jsstring.

Definition dollar : code_unit := 36%N.

(** [s.startsWith('$')]. *)
Definition startsWith_dollar (s : jsstring) : bool :=
  match s with
  | c :: _ => (c =? dollar)%N
  | [] => false
  end.

(** [result[key] = v] on the own properties of a plain object, kept in
    the order of their first assignment: an existing property keeps its
    place and takes the new value, a new one comes last; assigning to
    [__proto__] sets the prototype, or does nothing, and makes no own
    property.  (Enumerating the object would give the keys that are array
    indices first, in ascending order, and then the others in this
    order.) *)
Definition own_set (result : list (jsstring * value)) (key : jsstring) (v : value)
  : list (jsstring * value) :=
  if decide (key = str "__proto__") then result
  else if decide (key ∈ result.*1) then
    (fun kv => if decide (kv.1 = key) then (key, v) else kv) <$> result
  else result ++ [(key, v)].

(** The key under which a property is stored:
    [key.startsWith('$') ? (process.env[key.slice(1)] ?? key) : key]. *)
Definition new_key (key : jsstring) : jsstring :=
  if startsWith_dollar key then
    match env (slice_from key 1) with
    | Some value => value
    | None => nullish (inherited (slice_from key 1)) key
    end
  else key.

(** Lines 124-154. *)
Fixpoint substituteEnvVars (obj : value) : env_error + value :=
  match obj with
  | VStr s =>
      if startsWith_dollar s then
        let envVar := slice_from s 1 in
        match env envVar with
        | Some value => if truthy_string value then inr (VStr value)
                        else inl (NotSet envVar)
        | None =>
            match inherited envVar with
            | Some _ => inr (VInherited envVar)
            | None => inl (NotSet envVar)
            end
        end
      else inr obj
  | VArr items =>
      (* obj.map(substituteEnvVars) *)
      match
        (fix map_items (l : list value) : env_error + list value :=
           match l with
           | [] => inr []
           | x :: l' =>
               match substituteEnvVars x with
               | inl e => inl e
               | inr y =>
                   match map_items l' with
                   | inl e => inl e
                   | inr ys => inr (y :: ys)
                   end
               end
           end) items
      with
      | inl e => inl e
      | inr ys => inr (VArr ys)
      end
  | VObj fields =>
      (* for (const [key, value] of Object.entries(obj)) *)
      match
        (fix entries (l : list (jsstring * value)) (result : list (jsstring * value))
           : env_error + list (jsstring * value) :=
           match l with
           | [] => inr result
           | (key, v) :: l' =>
               let newKey := new_key key in
               match substituteEnvVars v with
               | inl e => inl e
               | inr v' => entries l' (own_set result newKey v')
               end
           end) fields []
      with
      | inl e => inl e
      | inr result => inr (VObj result)
      end
  | VNull | VBool _ | VNum _ => inr obj
  | VInherited _ =>
      (* not among the values that are read; a function is returned as it
         is, by the last line *)
      inr obj
  end.

(** The two loops of [substituteEnvVars], by name. *)
Definition map_items : list value -> env_error + list value :=
  fix map_items (l : list value) : env_error + list value :=
    match l with
    | [] => inr []
    | x :: l' =>
        match substituteEnvVars x with
        | inl e => inl e
        | inr y =>
            match map_items l' with
            | inl e => inl e
            | inr ys => inr (y :: ys)
            end
        end
    end.

Definition entries
  : list (jsstring * value) -> list (jsstring * value)
    -> env_error + list (jsstring * value) :=
  fix entries (l : list (jsstring * value)) (result : list (jsstring * value))
    : env_error + list (jsstring * value) :=
    match l with
    | [] => inr result
    | (key, v) :: l' =>
        let newKey := new_key key in
        match substituteEnvVars v with
        | inl e => inl e
        | inr v' => entries l' (own_set result newKey v')
        end
    end.

(** *** Words for the properties *)

(** A name under which [process.env] holds something truthy: a variable
    set to a non-empty string, or, for a name that is no variable, a
    property the object inherits. *)
Definition is_set (name : jsstring) : bool :=
  match env name with
  | Some value => truthy_string value
  | None => bool_decide (is_Some (inherited name))
  end.

(** The variables named by the [$NAME] strings among the values (array
    items and property values at any depth, not property keys), in the
    order the function meets them. *)
Fixpoint placeholders (obj : value) : list jsstring :=
  match obj with
  | VStr s => if startsWith_dollar s then [slice_from s 1] else []
  | VArr items => flat_map placeholders items
  | VObj fields => flat_map (fun kv => placeholders kv.2) fields
  | VNull | VBool _ | VNum _ | VInherited _ => []
  end.

(** The first of the names under which nothing truthy is found. *)
Definition first_unset (names : list jsstring) : option jsstring :=
  List.find (fun name => negb (is_set name)) names.

(** What a result says of the names met: a failure names the first that
    is not set, a success means there is none. *)
Definition agrees {A} (r : env_error + A) (names : list jsstring) : Prop :=
  match r with
  | inl (NotSet name) => first_unset names = Some name
  | inr _ => first_unset names = None
  end.

(** JSON without [$]: no string value and no key starts with [$], and
    every object has distinct keys, none of them [__proto__]. *)
Fixpoint plain (obj : value) : bool :=
  match obj with
  | VStr s => negb (startsWith_dollar s)
  | VArr items => forallb plain items
  | VObj fields =>
      forallb (fun kv => negb (startsWith_dollar kv.1)
                         && negb (bool_decide (kv.1 = str "__proto__"))
                         && plain kv.2) fields
      && bool_decide (NoDup fields.*1)
  | VNull | VBool _ | VNum _ => true
  | VInherited _ => false
  end.

End WithNumbers.

Arguments VNull {number}.
Arguments VBool {number} b.
Arguments VNum {number} x.
Arguments VStr {number} s.
Arguments VArr {number} items.
Arguments VObj {number} fields.
Arguments VInherited {number} name.
Arguments substituteEnvVars {number} env inherited obj.
Arguments placeholders {number} obj.
Arguments plain {number} obj.
Arguments own_set {number} result key v.
Arguments map_items {number} env inherited l.
Arguments entries {number} env inherited l result.
Arguments agrees env inherited {A} r names.

(** The workflow of the README, with its reference to the klados. *)
Definition workflow (klados : jsstring) : value Z :=
  VObj [(str "entry", VStr (str "split"));
        (str "flow",
         VObj [(str "split",
                VObj [(str "klados", VObj [(str "id", VStr klados)]);
                      (str "then",
                       VObj [(str "recurse", VStr (str "split"));
                             (str "max_depth", VNum 10%Z);
                             (str "route",
                              VArr [VObj [(str "where",
                                           VObj [(str "property", VStr (str "done"));
                                                 (str "equals", VBool true)]);
                                          (str "target", VStr (str "done"))]])])])])].

(** An environment in which only SPLITTER_KLADOS is set. *)
Definition env_with_klados (id : jsstring) (name : jsstring) : option jsstring :=
  if decide (name = str "SPLITTER_KLADOS") then Some id else None.

Definition env_empty (name : jsstring) : option jsstring := None.

(** A prototype with [toString] alone, and what that function converts to
    as a key. *)
Definition only_toString (name : jsstring) : option jsstring :=
  if decide (name = str "toString")
  then Some (str "function toString() { [native code] }")
  else None.

(** [process.env] without a prototype. *)
Definition nothing_inherited (name : jsstring) : option jsstring := None.

End Register.

(** ** scripts/register.ts: what [main] decides to do *)

Module Main.

Inductive network : Type := TestNet | MainNet.

(** What [main] goes on to do once the arguments are read:
    [process.exit(1)], [registerWorkflow] or [registerKlados]. *)
Inductive action : Type :=
| Exit1
| RegisterWorkflow (workflowName : jsstring) (net : network) (isDryRun : bool)
| RegisterKlados (net : network) (isDryRun : bool).

(** [argv.includes(x)]. *)
Definition includes (argv : list jsstring) (x : jsstring) : bool :=
  bool_decide (x ∈ argv).

(** [argv.indexOf(x)]; [None] stands for -1. *)
Fixpoint indexOf (argv : list jsstring) (x : jsstring) : option nat :=
  match argv with
  | [] => None
  | a :: rest => if decide (a = x) then Some 0 else S <$> indexOf rest x
  end.

(** [name.replace(/\.json$/, '')]. *)
Definition strip_json (name : jsstring) : jsstring :=
  if decide (str ".json" `suffix_of` name)
  then take (length name - length (str ".json")) name
  else name.

(** Lines 378-398, up to the call made. *)
Definition main (ARKE_USER_KEY : option jsstring) (argv : list jsstring) : action :=
  if not_string ARKE_USER_KEY then Exit1
  else
    let isProduction :=
      includes argv (str "--production") || includes argv (str "--prod") in
    let isDryRun := includes argv (str "--dry-run") in
    let net := if isProduction then MainNet else TestNet in
    let workflowIndex := indexOf argv (str "--workflow") in
    let workflowName :=
      match workflowIndex with
      | Some i => argv !! (i + 1)
      | None => None
      end in
    match workflowName with
    | Some name =>
        if truthy_string name then RegisterWorkflow (strip_json name) net isDryRun
        else RegisterKlados net isDryRun
    | None => RegisterKlados net isDryRun
    end.

End Main.

(** ** src/job.ts: [processJob] *)

Section WithSpreadLimit.

(** The number of arguments the JavaScript engine takes in one call:
    [f(...array)] throws a RangeError when the array is longer. *)
Variable spread_limit : nat.

(** Line 41: [Math.max(...lengths)]. *)
Definition Math_max_spread (lengths : list nat) : prog nat :=
  if length lengths <=? spread_limit then Ret (max_list lengths)
  else Throw RangeError.

Definition processJob (job : KladosJob) : prog (list Output) :=
  let currentDepth := recurseDepth job in
  log_info "Splitter starting"
    [("depth", JNum currentDepth);
     ("target", JStr (str (target_entity (request job))))];;
  target ← fetchTarget job;
  let segs := working_segments (properties target) in
  maxLen ← (if 0 <? length segs then Math_max_spread (length <$> segs)
            else mret 0);
  log_info "Current state"
    [("depth", JNum currentDepth);
     ("segmentCount", jnat (length segs));
     ("maxLength", jnat maxLen)];;
  if allDone segs then
    log_success "All segments below threshold - terminating"
      [("depth", JNum currentDepth);
       ("segmentCount", jnat (length segs));
       ("segmentLengths", JArr ((fun s => jnat (length s)) <$> segs))];;
    mret [{| entity_id := id target; done := true |}]
  else
    let '(newSegments, splitsMade) := split_round segs in
    r ← api_GET_tip (id target);
    match tip_ok r with
    | None => throw (Error "Failed to get entity tip: " (tip_error r))
    | Some tip =>
        let splitCount := js_add (nullish (split_count (properties target)) 0%Z) 1%Z in
        u ← api_PUT (id target)
              {| expect_tip := cid tip;
                 put_properties :=
                   (* ...target.properties, then the three keys set *)
                   {| text := text (properties target);
                      segments := Some newSegments;
                      split_count := Some splitCount;
                      last_split_depth := Some currentDepth;
                      extra := extra (properties target) |} |};
        if truthy_opt (put_error u) then
          throw (Error "Failed to update entity: " (put_error u))
        else
          log_info "Split complete - continuing recursion"
            [("depth", JNum currentDepth);
             ("prevSegments", jnat (length segs));
             ("newSegments", jnat (length newSegments));
             ("splitsMade", jnat splitsMade);
             ("splitCount", JNum splitCount)];;
          mret [{| entity_id := id target; done := false |}]
    end.

(** The driver of the tests: invoke until [done], at most [fuel] times,
    with nobody else writing and no call failing. *)
Fixpoint drive (fuel : nat) (job : KladosJob) (st : Store) : Store * nat :=
  match fuel with
  | 0 => (st, 0)
  | S fuel' =>
      let x := exec (processJob job) [] st in
      match outcome_of x with
      | inr [{| entity_id := _; done := false |}] =>
          let '(st', n) := drive fuel' job (final_store x) in (st', S n)
      | _ => (final_store x, 1)
      end
  end.

(** ** The ways one invocation can go *)

(** [invocation job calls o]: the calls to the store (log entries left
    out) and the outcome of one invocation, by the lines of the source at
    which it ends. *)
Inductive invocation (job : KladosJob) : list obs -> outcome (list Output) -> Prop :=
| inv_fetch_rejected e :
    (* line 29 rejects *)
    invocation job
      [OFetch (target_entity (request job)) (inl e)]
      (inl (Rejected e))
| inv_spread_failed target :
    (* line 41 throws *)
    spread_limit < length (working_segments (properties target)) ->
    invocation job
      [OFetch (target_entity (request job)) (inr target)]
      (inl RangeError)
| inv_all_done target :
    (* line 55 *)
    length (working_segments (properties target)) <= spread_limit ->
    allDone (working_segments (properties target)) = true ->
    invocation job
      [OFetch (target_entity (request job)) (inr target)]
      (inr [{| entity_id := id target; done := true |}])
| inv_tip_failed target r :
    (* line 80 *)
    length (working_segments (properties target)) <= spread_limit ->
    allDone (working_segments (properties target)) = false ->
    tip_ok r = None ->
    invocation job
      [OFetch (target_entity (request job)) (inr target); OTip (id target) r]
      (inl (Error "Failed to get entity tip: " (tip_error r)))
| inv_write_failed target r tip u :
    (* line 99 *)
    length (working_segments (properties target)) <= spread_limit ->
    allDone (working_segments (properties target)) = false ->
    tip_ok r = Some tip ->
    truthy_opt (put_error u) = true ->
    invocation job
      [OFetch (target_entity (request job)) (inr target);
       OTip (id target) r;
       OPut (id target)
         {| expect_tip := cid tip;
            put_properties := written_properties job target |}
         u]
      (inl (Error "Failed to update entity: " (put_error u)))
| inv_written target r tip u :
    (* line 111 *)
    length (working_segments (properties target)) <= spread_limit ->
    allDone (working_segments (properties target)) = false ->
    tip_ok r = Some tip ->
    truthy_opt (put_error u) = false ->
    invocation job
      [OFetch (target_entity (request job)) (inr target);
       OTip (id target) r;
       OPut (id target)
         {| expect_tip := cid tip;
            put_properties := written_properties job target |}
         u]
      (inr [{| entity_id := id target; done := false |}]).

(** ** test/recurse.test.ts: the loop that re-invokes the worker *)

Definition MAX_ITERATIONS : nat := 20.

(** Lines 101-131, [invokeAndWait]: the klados is invoked directly (depth
    0) on the entity and waited for, with nobody else writing and every
    call served; [assertLogCompleted] fails ([None]) when the job raised;
    otherwise the entity is read back and [done] is whether its
    [split_count] is the previous one. *)
Definition invokeAndWait (entityId : string) (prevSplitCount : option Z) (st : Store)
  : option (Store * (bool * option Z)) :=
  let job := {| recurseDepth := 0; request := {| target_entity := entityId |} |} in
  let x := exec (processJob job) [] st in
  match outcome_of x with
  | inl _ => None
  | inr _ =>
      let splitCount := split_count (rec_props (final_store x)) in
      Some (final_store x, (bool_decide (splitCount = prevSplitCount), splitCount))
  end.

(** Lines 164-181: [while (iterationCount < MAX_ITERATIONS)], with
    [remaining] iterations left before the limit. *)
Fixpoint test_loop (remaining : nat) (entityId : string) (iterationCount : nat)
    (prevSplitCount : option Z) (st : Store) : option (Store * nat) :=
  match remaining with
  | 0 => Some (st, iterationCount)
  | S remaining' =>
      match invokeAndWait entityId prevSplitCount st with
      | None => None
      | Some (st', (isDone, splitCount)) =>
          if isDone then Some (st', S iterationCount)
          else test_loop remaining' entityId (S iterationCount) splitCount st'
      end
  end.

(** Lines 160-162: the loop from [iterationCount = 0] and
    [prevSplitCount = undefined]. *)
Definition run_test (entityId : string) (st : Store) : option (Store * nat) :=
  test_loop MAX_ITERATIONS entityId 0 None st.


(** * Properties *)

(** ** The round of splitting *)

Section Splitting.

Implicit Types (s : jsstring) (segs : list jsstring).

Lemma slice_prefix s mid : slice s 0 mid = take mid s.
Proof. unfold slice. by rewrite Nat.sub_0_r. Qed.

Lemma pieces_small s : length s <= MIN_SEGMENT_LENGTH -> pieces s = [s].
Proof. intros H. unfold pieces. case_decide; [lia | done]. Qed.

Lemma pieces_large s : MIN_SEGMENT_LENGTH < length s -> pieces s = halves s.
Proof. intros H. unfold pieces. case_decide; [done | lia]. Qed.

Lemma split_body_pieces acc n s :
  split_body (acc, n) s
  = (acc ++ pieces s, n + (if decide (over_threshold s) then 1 else 0)).
Proof.
  unfold split_body, pieces, over_threshold, halves, floor_div, slice_from.
  rewrite slice_prefix.
  unfold decide, over_threshold_dec.
  destruct (Nat.ltb_spec MIN_SEGMENT_LENGTH (length s)) as [Hlt | Hge];
    case_decide; try lia; f_equal; lia.
Qed.

Lemma fold_split_body segs : forall acc n,
  fold_left split_body segs (acc, n)
  = (acc ++ flat_map pieces segs, n + length (filter over_threshold segs)).
Proof.
  induction segs as [| s segs IH]; intros acc n; cbn [fold_left flat_map].
  - rewrite app_nil_r. simpl. f_equal. lia.
  - rewrite split_body_pieces, IH, <- app_assoc, filter_cons.
    f_equal. case_decide; simpl; lia.
Qed.

Lemma split_round_pieces segs :
  split_round segs = (flat_map pieces segs, length (filter over_threshold segs)).
Proof. unfold split_round. by rewrite fold_split_body. Qed.

Lemma halves_lengths s :
  length (take (length s / 2) s) = length s / 2
  /\ length (drop (length s / 2) s) = (length s + 1) / 2.
Proof.
  rewrite length_take, length_drop.
  pose proof (Nat.div_mod_eq (length s) 2) as E.
  pose proof (Nat.mod_upper_bound (length s) 2) as U.
  pose proof (Nat.div_mod_eq (length s + 1) 2) as E1.
  pose proof (Nat.mod_upper_bound (length s + 1) 2) as U1.
  lia.
Qed.

Lemma length_flat_map_pieces segs :
  length (flat_map pieces segs)
  = length segs + length (filter over_threshold segs).
Proof.
  induction segs as [| s segs IH]; [done |].
  simpl. rewrite length_app, IH, filter_cons.
  destruct (decide (over_threshold s)) as [H | H]; unfold over_threshold in H.
  - rewrite pieces_large by done. simpl. lia.
  - rewrite pieces_small by lia. simpl. lia.
Qed.

Lemma allDone_Forall segs :
  allDone segs = true <-> Forall (fun s => length s <= MIN_SEGMENT_LENGTH) segs.
Proof.
  unfold allDone. rewrite forallb_forall, Forall_forall.
  split; intros H s Hs.
  - apply Nat.leb_le, H. by apply list_elem_of_In.
  - apply Nat.leb_le, H. by apply list_elem_of_In.
Qed.

Lemma flat_map_pieces_small segs :
  Forall (fun s => length s <= MIN_SEGMENT_LENGTH) segs ->
  flat_map pieces segs = segs /\ filter over_threshold segs = [].
Proof.
  induction 1 as [| s segs Hs _ [IH1 IH2]]; [done |].
  simpl. rewrite pieces_small, filter_cons, IH1, IH2 by done.
  unfold over_threshold. case_decide; [lia | done].
Qed.

Lemma over_threshold_splits segs :
  allDone segs = false -> 1 <= length (filter over_threshold segs).
Proof.
  intros H.
  destruct (filter over_threshold segs) as [| x l] eqn:E; [| simpl; lia].
  exfalso. assert (allDone segs = true) as Hd; [| congruence].
  apply allDone_Forall, Forall_forall. intros s Hs.
  destruct (decide (over_threshold s)) as [Ho | Hn].
  - assert (s ∈ filter over_threshold segs) as Hin
      by (apply list_elem_of_filter; done).
    rewrite E in Hin. by apply not_elem_of_nil in Hin.
  - unfold over_threshold in Hn. lia.
Qed.

Lemma pieces_halve_bound k s :
  length s <= MIN_SEGMENT_LENGTH * 2 ^ S k ->
  Forall (fun p => length p <= MIN_SEGMENT_LENGTH * 2 ^ k) (pieces s).
Proof.
  intros H. unfold pieces. case_decide as Hlt.
  - destruct (halves_lengths s) as [E1 E2]. unfold halves.
    assert (0 < 2 ^ k) by (apply Nat.neq_0_lt_0, Nat.pow_nonzero; lia).
    pose proof (Nat.div_mod_eq (length s) 2).
    pose proof (Nat.mod_upper_bound (length s) 2).
    pose proof (Nat.div_mod_eq (length s + 1) 2).
    pose proof (Nat.mod_upper_bound (length s + 1) 2).
    rewrite Nat.pow_succ_r' in H.
    repeat constructor; rewrite ?E1, ?E2; lia.
  - repeat constructor.
    assert (0 < 2 ^ k) by (apply Nat.neq_0_lt_0, Nat.pow_nonzero; lia).
    unfold MIN_SEGMENT_LENGTH in *. nia.
Qed.

Lemma round_halves_bound k segs :
  Forall (fun s => length s <= MIN_SEGMENT_LENGTH * 2 ^ S k) segs ->
  Forall (fun s => length s <= MIN_SEGMENT_LENGTH * 2 ^ k) (fst (split_round segs)).
Proof.
  rewrite split_round_pieces. simpl.
  induction 1 as [| s segs Hs _ IH]; simpl; [constructor |].
  apply Forall_app. split; [by apply pieces_halve_bound | exact IH].
Qed.

Lemma rounds_bounded k : forall segs,
  Forall (fun s => length s <= MIN_SEGMENT_LENGTH * 2 ^ k) segs ->
  Forall (fun s => length s <= MIN_SEGMENT_LENGTH) (rounds k segs).
Proof.
  induction k as [| k IH]; intros segs H; cbn [rounds].
  - eapply Forall_impl; [exact H |]. cbv beta. intros s Hs.
    rewrite Nat.pow_0_r in Hs. lia.
  - apply IH. by apply round_halves_bound.
Qed.

Lemma rounds_add a : forall b segs, rounds (a + b) segs = rounds b (rounds a segs).
Proof. induction a as [| a IH]; intros b segs; simpl; [done | by rewrite IH]. Qed.

Lemma rounds_stable n segs :
  Forall (fun s => length s <= MIN_SEGMENT_LENGTH) segs -> rounds n segs = segs.
Proof.
  intros H. induction n as [| n IH]; simpl; [done |].
  rewrite split_round_pieces. simpl.
  destruct (flat_map_pieces_small segs H) as [-> _]. exact IH.
Qed.

Lemma maxLength_bound segs :
  Forall (fun s => length s <= maxLength segs) segs.
Proof.
  unfold maxLength. destruct segs as [| s0 segs]; [constructor |].
  change (0 <? length (s0 :: segs)) with true. cbv iota.
  apply Forall_forall. intros s Hs.
  apply max_list_elem_of_le. by apply list_elem_of_fmap_2.
Qed.

Lemma rounds_bound_spec m :
  m <= MIN_SEGMENT_LENGTH * 2 ^ rounds_bound m
  /\ forall j, m <= MIN_SEGMENT_LENGTH * 2 ^ j -> rounds_bound m <= j.
Proof.
  unfold rounds_bound, MIN_SEGMENT_LENGTH.
  change (10 - 1) with 9. set (q := (m + 9) / 10).
  assert (m <= 10 * q /\ (forall j, m <= 10 * j -> q <= j)) as [Hq Hmin].
  { pose proof (Nat.div_mod_eq (m + 9) 10). pose proof (Nat.mod_upper_bound (m + 9) 10).
    split; [subst q; lia |].
    intros j Hj. subst q. lia. }
  clearbody q. split.
  - destruct (decide (q <= 1)) as [Hle | Hgt].
    + assert (Nat.log2_up q = 0) as -> by (apply Nat.log2_up_eqn0; lia). simpl. lia.
    + destruct (Nat.log2_up_spec q) as [_ Hup]; [lia |].
      revert Hup. generalize (2 ^ Nat.log2_up q). intros p Hup. lia.
  - intros j Hj. destruct (decide (q = 0)) as [E | Hne].
    + rewrite E. apply Nat.le_0_l.
    + apply Nat.log2_up_le_pow2; [lia |]. apply Hmin. exact Hj.
Qed.

End Splitting.
(** ** Numbers *)

Section Numbers.

Lemma js_add_safe (n : Z) : safe_integer n -> js_add n 1 = (n + 1)%Z.
Proof.
  unfold safe_integer, js_add, to_double, two53. intros H. cbv zeta.
  rewrite (proj2 (Z.leb_le _ _)); [done | lia].
Qed.

Lemma safe_integer_of_nat (k : nat) : k <= 20 -> safe_integer (Z.of_nat k).
Proof. unfold safe_integer, two53. lia. Qed.

End Numbers.


(** ** One invocation, against any responses *)

Section Invocation.

#[local] Arguments Nat.ltb : simpl never.
#[local] Arguments Nat.leb : simpl never.

Ltac behaves_inv H :=
  inversion H; subst; clear H.

(** From the 'Current state' log on. *)
Ltac after_spread job target Hk Hle :=
  cbn in Hk; behaves_inv Hk;
  match goal with H : behaves _ _ _ |- _ => rename H into Hk end;
  let Hdone := fresh "Hdone" in
  destruct (allDone (working_segments (properties target))) eqn:Hdone; cbn in Hk;
  [ behaves_inv Hk;
    match goal with H : behaves _ _ _ |- _ => behaves_inv H end;
    by apply inv_all_done
  | let newSegments := fresh "newSegments" in
    let splitsMade := fresh "splitsMade" in
    let Hround := fresh "Hround" in
    destruct (split_round (working_segments (properties target)))
      as [newSegments splitsMade] eqn:Hround;
    cbn in Hk; behaves_inv Hk;
    match goal with H : behaves _ _ _ |- _ => rename H into Hk end;
    let Hw := fresh "Hw" in
    assert (written_properties job target
            = {| text := text (properties target);
                 segments := Some newSegments;
                 split_count :=
                   Some (js_add (nullish (split_count (properties target)) 0%Z) 1%Z);
                 last_split_depth := Some (recurseDepth job);
                 extra := extra (properties target) |}) as Hw
      by (unfold written_properties; by rewrite Hround);
    match type of Hk with
    | context [tip_ok ?r] =>
        let tip := fresh "tip" in
        let Htip := fresh "Htip" in
        destruct (tip_ok r) as [tip |] eqn:Htip; cbn in Hk;
        [ behaves_inv Hk;
          match goal with H : behaves _ _ _ |- _ => rename H into Hk end;
          match type of Hk with
          | context [truthy_opt (put_error ?u)] =>
              let Hu := fresh "Hu" in
              destruct (truthy_opt (put_error u)) eqn:Hu; cbn in Hk;
              [ behaves_inv Hk; rewrite <- Hw;
                by apply (inv_write_failed job target r tip u)
              | behaves_inv Hk;
                match goal with H : behaves _ _ _ |- _ => behaves_inv H end;
                rewrite <- Hw;
                by apply (inv_written job target r tip u) ]
          end
        | behaves_inv Hk; by apply inv_tip_failed ]
    end ].

Lemma processJob_invocation job tr o :
  behaves (processJob job) tr o -> invocation job (store_calls tr) o.
Proof.
  unfold processJob. intros H.
  behaves_inv H.
  match goal with H : behaves _ _ _ |- _ => cbn in H; behaves_inv H end.
  match goal with H : behaves _ _ _ |- _ => rename H into Hk end.
  destruct r as [e | target]; cbn in Hk.
  { behaves_inv Hk. apply inv_fetch_rejected. }
  destruct (0 <? length (working_segments (properties target))) eqn:Hpos.
  - unfold Math_max_spread in Hk. rewrite length_fmap in Hk.
    match type of Hk with
    | context [if ?b then Ret _ else Throw RangeError] => destruct b eqn:Hleb
    end.
    + assert (length (working_segments (properties target)) <= spread_limit)
        as Hle by (by apply Nat.leb_le).
      after_spread job target Hk Hle.
    + apply Nat.leb_gt in Hleb. cbn in Hk. behaves_inv Hk.
      by apply inv_spread_failed.
  - assert (length (working_segments (properties target)) <= spread_limit) as Hle
      by (apply Nat.ltb_ge in Hpos; lia).
    after_spread job target Hk Hle.
Qed.

End Invocation.

Lemma exec_behaves {R} (p : prog R) : forall sched st,
  behaves p (snd <$> trace_of (exec p sched st)) (outcome_of (exec p sched st)).
Proof.
  induction p as [r | e | entry k IH | target k IH | rid k IH | rid body k IH];
    intros sched st; cbn [exec].
  - constructor.
  - constructor.
  - specialize (IH sched st). destruct (exec k sched st) as [[st' tr] o].
    by constructor.
  - destruct (next_turn sched) as [t rest].
    specialize (IH (serve_fetch (disturb st t) target (fault t)) rest (disturb st t)).
    destruct (exec _ rest (disturb st t)) as [[st' tr] o]. by constructor.
  - destruct (next_turn sched) as [t rest].
    specialize (IH (serve_tip (disturb st t) rid (fault t)) rest (disturb st t)).
    destruct (exec _ rest (disturb st t)) as [[st' tr] o]. by constructor.
  - destruct (next_turn sched) as [t rest].
    destruct (serve_put (disturb st t) rid body (fault t)) as [st2 r].
    specialize (IH r rest st2).
    destruct (exec _ rest st2) as [[st' tr] o]. by constructor.
Qed.

(** ** One invocation, against the store *)

Section AgainstStore.

#[local] Arguments serve_fetch : simpl never.
#[local] Arguments serve_tip : simpl never.
#[local] Arguments serve_put : simpl never.
#[local] Arguments disturb : simpl never.
#[local] Arguments split_round : simpl never.
#[local] Arguments working_segments : simpl never.
#[local] Arguments allDone : simpl never.
#[local] Arguments Nat.ltb : simpl never.
#[local] Arguments Nat.leb : simpl never.
#[local] Arguments tip_ok : simpl never.
#[local] Arguments truthy_opt : simpl never.

(** How the store answers the calls of one invocation: each response is
    the store's, at the state the writes of others have brought it to. *)
Lemma exec_processJob_served job sched st :
  let x := exec (processJob job) sched st in
  let st1 := disturb st (turn_at 0 sched) in
  let st2 := disturb st1 (turn_at 1 sched) in
  let st3 := disturb st2 (turn_at 2 sched) in
  match store_trace (trace_of x) with
  | [(c1, OFetch tgt r1)] =>
      c1 = rec_cid st1
      /\ r1 = serve_fetch st1 tgt (fault (turn_at 0 sched))
      /\ final_store x = st1
  | [(c1, OFetch tgt r1); (c2, OTip rid r2)] =>
      c1 = rec_cid st1
      /\ r1 = serve_fetch st1 tgt (fault (turn_at 0 sched))
      /\ c2 = rec_cid st2
      /\ r2 = serve_tip st2 rid (fault (turn_at 1 sched))
      /\ final_store x = st2
  | [(c1, OFetch tgt r1); (c2, OTip rid r2); (c3, OPut rid' body r3)] =>
      c1 = rec_cid st1
      /\ r1 = serve_fetch st1 tgt (fault (turn_at 0 sched))
      /\ c2 = rec_cid st2
      /\ r2 = serve_tip st2 rid (fault (turn_at 1 sched))
      /\ c3 = rec_cid st3
      /\ (final_store x, r3) = serve_put st3 rid' body (fault (turn_at 2 sched))
  | _ => False
  end.
Proof.
  unfold processJob.
  destruct sched as [| t1 [| t2 [| t3 rest]]]; cbn.
  all: match goal with |- context [serve_fetch ?s ?t ?f] =>
         destruct (serve_fetch s t f) as [e | target] eqn:Hf end; cbn; [done |].
  all: unfold Math_max_spread;
       match goal with |- context [0 <? ?n] => destruct (0 <? n) end; cbn.
  all: try match goal with |- context [?n <=? spread_limit] =>
         destruct (n <=? spread_limit) end; cbn; try done.
  all: destruct (allDone (working_segments (properties target))); cbn; [done |].
  all: destruct (split_round (working_segments (properties target)))
         as [newSegments splitsMade]; cbn.
  all: match goal with |- context [tip_ok ?r] =>
         destruct (tip_ok r) as [tip |] end; cbn; try done.
  all: match goal with |- context [serve_put ?s ?t ?b ?f] =>
         destruct (serve_put s t b f) as [st4 u] eqn:Hp end; cbn.
  all: destruct (truthy_opt (put_error u)); cbn; done.
Qed.

End AgainstStore.

Section Cases.

Lemma store_calls_trace (tr : list (nat * obs)) :
  store_calls (snd <$> tr) = snd <$> store_trace tr.
Proof.
  unfold store_calls, store_trace.
  induction tr as [| [c o] tr IH]; [done |].
  rewrite fmap_cons, !filter_cons. cbn [snd].
  destruct (decide (is_log o = false)); rewrite IH; done.
Qed.

Lemma elem_of_store_calls (tr : list obs) (o : obs) :
  o ∈ tr -> is_log o = false -> o ∈ store_calls tr.
Proof. intros Hin Hl. apply list_elem_of_filter. done. Qed.

Lemma Forall_store_calls (P : obs -> Prop) (tr : list obs) :
  (forall entry, P (OLog entry)) -> Forall P (store_calls tr) -> Forall P tr.
Proof.
  intros Hlog H. rewrite Forall_forall in *. intros o Ho.
  destruct o; try apply Hlog; apply H, elem_of_store_calls; done.
Qed.

Lemma disturb_alone sched n st : alone sched -> disturb st (turn_at n sched) = st.
Proof.
  intros Ha. unfold disturb, turn_at.
  destruct (nth_in_or_default n sched quiet) as [Hin | ->]; [| done].
  apply list_elem_of_In in Hin.
  rewrite (proj1 (Forall_forall _ _) Ha _ Hin). done.
Qed.

Lemma rec_id_disturb st t : rec_id (disturb st t) = rec_id st.
Proof.
  unfold disturb. generalize (interference t) st.
  induction l as [| p l IH]; intros st'; simpl; [done | by rewrite IH].
Qed.

Lemma rec_cid_disturb st t :
  rec_cid (disturb st t) = rec_cid st + length (interference t).
Proof.
  unfold disturb. generalize (interference t) st.
  induction l as [| p l IH]; intros st'; simpl; [lia | rewrite IH; simpl; lia].
Qed.

Lemma allDone_false_Exists segs :
  allDone segs = false <-> Exists over_threshold segs.
Proof.
  induction segs as [| s segs IH].
  - split; [discriminate | intros H; inversion H].
  - change (allDone (s :: segs))
      with ((length s <=? MIN_SEGMENT_LENGTH) && allDone segs).
    rewrite Exists_cons, andb_false_iff, IH, Nat.leb_gt. done.
Qed.

(** The store's side and the function's side of one invocation together. *)
Lemma exec_processJob_cases job sched st :
  let x := exec (processJob job) sched st in
  let tgt := target_entity (request job) in
  let st1 := disturb st (turn_at 0 sched) in
  let st2 := disturb st1 (turn_at 1 sched) in
  let st3 := disturb st2 (turn_at 2 sched) in
  let r1 := serve_fetch st1 tgt (fault (turn_at 0 sched)) in
  (exists e,
      r1 = inl e
      /\ store_trace (trace_of x) = [(rec_cid st1, OFetch tgt r1)]
      /\ final_store x = st1
      /\ outcome_of x = inl (Rejected e))
  \/ (exists target,
      r1 = inr target
      /\ spread_limit < length (working_segments (properties target))
      /\ store_trace (trace_of x) = [(rec_cid st1, OFetch tgt r1)]
      /\ final_store x = st1
      /\ outcome_of x = inl RangeError)
  \/ (exists target,
      r1 = inr target
      /\ length (working_segments (properties target)) <= spread_limit
      /\ allDone (working_segments (properties target)) = true
      /\ store_trace (trace_of x) = [(rec_cid st1, OFetch tgt r1)]
      /\ final_store x = st1
      /\ outcome_of x = inr [{| entity_id := id target; done := true |}])
  \/ (exists target,
      let r2 := serve_tip st2 (id target) (fault (turn_at 1 sched)) in
      r1 = inr target
      /\ length (working_segments (properties target)) <= spread_limit
      /\ allDone (working_segments (properties target)) = false
      /\ tip_ok r2 = None
      /\ store_trace (trace_of x)
         = [(rec_cid st1, OFetch tgt r1); (rec_cid st2, OTip (id target) r2)]
      /\ final_store x = st2
      /\ outcome_of x = inl (Error "Failed to get entity tip: " (tip_error r2)))
  \/ (exists target tip,
      let r2 := serve_tip st2 (id target) (fault (turn_at 1 sched)) in
      let body := {| expect_tip := cid tip;
                     put_properties := written_properties job target |} in
      let w := serve_put st3 (id target) body (fault (turn_at 2 sched)) in
      r1 = inr target
      /\ length (working_segments (properties target)) <= spread_limit
      /\ allDone (working_segments (properties target)) = false
      /\ tip_ok r2 = Some tip
      /\ store_trace (trace_of x)
         = [(rec_cid st1, OFetch tgt r1); (rec_cid st2, OTip (id target) r2);
            (rec_cid st3, OPut (id target) body (snd w))]
      /\ final_store x = fst w
      /\ outcome_of x
         = if truthy_opt (put_error (snd w))
           then inl (Error "Failed to update entity: " (put_error (snd w)))
           else inr [{| entity_id := id target; done := false |}]).
Proof.
  cbv zeta.
  pose proof (exec_behaves (processJob job) sched st) as Hb.
  apply processJob_invocation in Hb. rewrite store_calls_trace in Hb.
  pose proof (exec_processJob_served job sched st) as Hs. cbv zeta in Hs.
  destruct (store_trace (trace_of (exec (processJob job) sched st)))
    as [| [c1 o1] [| [c2 o2] [| [c3 o3] [| c4 l]]]];
    inversion Hb; subst; cbn [snd] in *.
  - destruct Hs as (-> & Hr & Hf). left. exists e. by rewrite <- Hr.
  - destruct Hs as (-> & Hr & Hf). right; left. exists target. by rewrite <- Hr.
  - destruct Hs as (-> & Hr & Hf). do 2 right; left. exists target.
    by rewrite <- Hr.
  - destruct Hs as (-> & Hr & -> & Hr2 & Hf). do 3 right; left. exists target.
    by rewrite <- Hr, <- Hr2.
  - destruct Hs as (-> & Hr & -> & Hr2 & -> & Hw). do 4 right. exists target, tip.
    rewrite <- Hr, <- Hr2, <- Hw. cbn [fst snd].
    match goal with H : truthy_opt _ = true |- _ => rewrite H end. done.
  - destruct Hs as (-> & Hr & -> & Hr2 & -> & Hw). do 4 right. exists target, tip.
    rewrite <- Hr, <- Hr2, <- Hw. cbn [fst snd].
    match goal with H : truthy_opt _ = false |- _ => rewrite H end. done.
Qed.

End Cases.

Section StoreAnswers.

Lemma serve_fetch_inr st tgt f target :
  serve_fetch st tgt f = inr target ->
  target = {| id := rec_id st; properties := rec_props st |}
  /\ tgt = rec_id st /\ f = None.
Proof.
  unfold serve_fetch. destruct f as [e |]; [done |].
  case_decide; [| done]. intros [= <-]. done.
Qed.

Lemma serve_fetch_served st :
  serve_fetch st (rec_id st) None
  = inr {| id := rec_id st; properties := rec_props st |}.
Proof. unfold serve_fetch. case_decide; done. Qed.

Lemma serve_tip_ok st rid f tip :
  tip_ok (serve_tip st rid f) = Some tip ->
  tip = {| cid := rec_cid st |} /\ rid = rec_id st /\ f = None.
Proof.
  unfold serve_tip, tip_ok. destruct f as [e |]; [cbn; by destruct (truthy e) |].
  case_decide; [| done]. cbn. intros [= <-]. done.
Qed.

Lemma serve_tip_served st :
  serve_tip st (rec_id st) None
  = {| tip_data := Some {| cid := rec_cid st |}; tip_error := None |}.
Proof. unfold serve_tip. case_decide; done. Qed.

Lemma serve_put_applied st rid body f :
  put_error (snd (serve_put st rid body f)) = None ->
  f = None /\ rid = rec_id st /\ expect_tip body = rec_cid st
  /\ fst (serve_put st rid body f)
     = {| rec_id := rec_id st; rec_cid := S (rec_cid st);
          rec_props := put_properties body |}.
Proof.
  unfold serve_put. destruct f as [e |]; [done |].
  repeat case_decide; done.
Qed.

Lemma serve_put_rejected st rid body f e :
  put_error (snd (serve_put st rid body f)) = Some e ->
  fst (serve_put st rid body f) = st.
Proof.
  unfold serve_put. destruct f as [e' |]; [done |].
  repeat case_decide; done.
Qed.

Lemma serve_put_served st body :
  expect_tip body = rec_cid st ->
  serve_put st (rec_id st) body None
  = ({| rec_id := rec_id st; rec_cid := S (rec_cid st);
        rec_props := put_properties body |}, {| put_error := None |}).
Proof. intros H. unfold serve_put. repeat case_decide; done. Qed.



End StoreAnswers.

Section Revisions.

Lemma disturb_take sched : forall n st,
  fold_left disturb (take (S n) sched) st
  = disturb (fold_left disturb (take n sched) st) (turn_at n sched).
Proof.
  induction sched as [| t rest IH]; intros n st.
  - rewrite !take_nil. unfold turn_at. by destruct n.
  - destruct n as [| n]; [done |].
    change (take (S (S n)) (t :: rest)) with (t :: take (S n) rest).
    change (take (S n) (t :: rest)) with (t :: take n rest).
    cbn [fold_left]. apply IH.
Qed.

Lemma revision_of_store_trace (sel : obs -> bool) (tr : list (nat * obs)) :
  (forall entry, sel (OLog entry) = false) ->
  revision_of sel tr = revision_of sel (store_trace tr).
Proof.
  intros Hlog. unfold revision_of, store_trace. f_equal. f_equal.
  induction tr as [| [c o] tr IH]; [done |].
  rewrite !filter_cons. cbn [snd].
  destruct o; cbn [is_log]; rewrite ?Hlog;
    repeat (case_decide; try done); rewrite ?filter_cons; cbn [snd];
    repeat (case_decide; try done); by rewrite IH.
Qed.

End Revisions.

(** Which call of an explicit list a given call is. *)
Ltac pin_call H :=
  repeat (apply elem_of_cons in H as [H | H]; simplify_eq);
  try (by apply elem_of_nil in H).

Section Depth.

Lemma serve_put_forget st rid b1 b2 f :
  expect_tip b1 = expect_tip b2 ->
  forget_depth (put_properties b1) = forget_depth (put_properties b2) ->
  let w1 := serve_put st rid b1 f in
  let w2 := serve_put st rid b2 f in
  snd w1 = snd w2
  /\ rec_id (fst w1) = rec_id (fst w2)
  /\ rec_cid (fst w1) = rec_cid (fst w2)
  /\ forget_depth (rec_props (fst w1)) = forget_depth (rec_props (fst w2))
  /\ (forall e, put_error (snd w1) = Some e -> fst w1 = fst w2).
Proof.
  intros He Hp. unfold serve_put. rewrite He.
  destruct f as [e |]; [done |]. repeat case_decide; done.
Qed.

Lemma written_properties_forget d1 d2 rq target :
  forget_depth (written_properties {| recurseDepth := d1; request := rq |} target)
  = forget_depth (written_properties {| recurseDepth := d2; request := rq |} target).
Proof. reflexivity. Qed.

End Depth.
(** ** A write that fails without a truthy error *)

Section FalsyError.

(** The write is answered with an error that is falsy ([''], [0], [false]
    or [null]): line 98 does not throw, and the invocation returns
    done=false with nothing written. *)
Lemma exec_write_falsy_error job sched st e :
  let st1 := disturb st (turn_at 0 sched) in
  let st3 := disturb (disturb st1 (turn_at 1 sched)) (turn_at 2 sched) in
  let segs := working_segments (rec_props st1) in
  let x := exec (processJob job) sched st in
  target_entity (request job) = rec_id st ->
  fault (turn_at 0 sched) = None ->
  fault (turn_at 1 sched) = None ->
  fault (turn_at 2 sched) = Some e ->
  truthy e = false ->
  length segs <= spread_limit ->
  allDone segs = false ->
  outcome_of x = inr [{| entity_id := rec_id st; done := false |}]
  /\ final_store x = st3
  /\ exists body,
      snd <$> store_trace (trace_of x)
      = [OFetch (rec_id st) (inr {| id := rec_id st; properties := rec_props st1 |});
         OTip (rec_id st)
           {| tip_data := Some {| cid := rec_cid (disturb st1 (turn_at 1 sched)) |};
              tip_error := None |};
         OPut (rec_id st) body {| put_error := Some e |}].
Proof.
  cbv zeta. intros Ht Hf0 Hf1 Hf2 He Hlen Hd.
  pose proof (exec_processJob_cases job sched st) as H. cbv zeta in H.
  rewrite Ht, Hf0, Hf1, Hf2 in H.
  assert (serve_fetch (disturb st (turn_at 0 sched)) (rec_id st) None
          = inr {| id := rec_id st;
                   properties := rec_props (disturb st (turn_at 0 sched)) |})
    as Hfetch.
  { rewrite <- (rec_id_disturb st (turn_at 0 sched)) at 1 2.
    apply serve_fetch_served. }
  rewrite Hfetch in H.
  assert (serve_tip (disturb (disturb st (turn_at 0 sched)) (turn_at 1 sched))
            (rec_id st) None
          = {| tip_data :=
                 Some {| cid := rec_cid (disturb (disturb st (turn_at 0 sched))
                                           (turn_at 1 sched)) |};
               tip_error := None |}) as Hserved.
  { rewrite <- (rec_id_disturb st (turn_at 0 sched)).
    rewrite <- (rec_id_disturb _ (turn_at 1 sched)).
    apply serve_tip_served. }
  destruct H as [(e0 & Hr & _) | [(target & Hr & Hlt & _)
    | [(target & Hr & _ & Hd' & _) | [(target & Hr & _ & _ & Hno & _)
    | (target & tip & Hr & _ & _ & Htip & Htr & Hfin & Ho)]]]];
    try discriminate Hr; injection Hr as <-; cbn [id properties] in *;
    try congruence; try lia.
  - rewrite Hserved in Hno. discriminate Hno.
  - rewrite Hserved in Htr. cbn [serve_put fst snd put_error truthy_opt] in *.
    rewrite He in Ho. split; [exact Ho |]. split; [exact Hfin |].
    eexists. rewrite Htr. reflexivity.
Qed.

End FalsyError.


(** * The claims *)


(** C1: one round of the loop goes through the segments once, in order;
    a segment longer than 10 is replaced by its two contiguous halves cut
    at floor(length / 2) (lengths floor(L/2) and ceil(L/2), equal when L is
    even, the first never larger), a segment of length at most 10 is kept,
    splitsMade counts the segments over the threshold, and the halves just
    made are not cut again: the output has exactly one more entry per
    split. *)
Theorem split_round_halves_each_once (segs : list jsstring) :
  fst (split_round segs) = flat_map pieces segs
  /\ snd (split_round segs) = length (filter over_threshold segs)
  /\ length (fst (split_round segs)) = length segs + snd (split_round segs)
  /\ (forall s, length s <= MIN_SEGMENT_LENGTH -> pieces s = [s])
  /\ (forall s, MIN_SEGMENT_LENGTH < length s ->
        let mid := floor_div (length s) 2 in
        let a := slice s 0 mid in
        let b := slice_from s mid in
        pieces s = [a; b]
        /\ a ++ b = s
        /\ length a = length s / 2
        /\ length b = (length s + 1) / 2
        /\ length a <= length b
        /\ (Nat.even (length s) = true -> length b = length s / 2)
        /\ (Nat.odd (length s) = true -> length b = S (length s / 2))).
Proof.
  rewrite split_round_pieces. cbn [fst snd].
  split; [done |]. split; [done |].
  split; [apply length_flat_map_pieces |].
  split; [apply pieces_small |].
  intros s Hs. cbv zeta. unfold floor_div, slice_from.
  rewrite slice_prefix, take_drop.
  destruct (halves_lengths s) as [E1 E2]. rewrite E1, E2.
  pose proof (Nat.div_mod_eq (length s) 2) as D.
  pose proof (Nat.mod_upper_bound (length s) 2) as U.
  pose proof (Nat.div_mod_eq (length s + 1) 2) as D1.
  pose proof (Nat.mod_upper_bound (length s + 1) 2) as U1.
  repeat split; try lia.
  - by apply pieces_large.
  - intros Hev. apply Nat.even_spec in Hev as [h Hh]. lia.
  - intros Hod. apply Nat.odd_spec in Hod as [h Hh]. lia.
Qed.

Lemma split_round_halves_each_once_witness :
  split_round [repeat_unit unit_A 21; str "abc"]
    = ([repeat_unit unit_A 10; repeat_unit unit_A 11; str "abc"], 1)
  /\ pieces (str "abc") = [str "abc"]
  /\ length (slice_from (repeat_unit unit_A 21) 10) = 11.
Proof.
  destruct (split_round_halves_each_once [repeat_unit unit_A 21; str "abc"])
    as (H1 & H2 & _ & Hsmall & Hlarge).
  split; [reflexivity |]. split.
  - apply Hsmall. vm_compute. lia.
  - assert (MIN_SEGMENT_LENGTH < length (repeat_unit unit_A 21)) as Hlt
      by (vm_compute; lia).
    destruct (Hlarge _ Hlt) as (_ & _ & _ & _ & _ & _ & Hodd).
    apply Hodd. reflexivity.
Defined.

(** C2: iterating the round reaches, within ceil(log2(max length / 10))
    rounds (the least k with max length <= 10 * 2^k), a sequence in which
    every segment has length at most 10, on which the all-done check is
    true and which a further round leaves as it is. *)
Theorem rounds_reach_fixed_point (segs : list jsstring) :
  let k := rounds_bound (maxLength segs) in
  (maxLength segs <= MIN_SEGMENT_LENGTH * 2 ^ k
   /\ forall j, maxLength segs <= MIN_SEGMENT_LENGTH * 2 ^ j -> k <= j)
  /\ forall more,
       let final := rounds (k + more) segs in
       Forall (fun s => length s <= MIN_SEGMENT_LENGTH) final
       /\ allDone final = true
       /\ split_round final = (final, 0)
       /\ final = rounds k segs.
Proof.
  intros k. split; [apply rounds_bound_spec |].
  intros more final.
  assert (Forall (fun s => length s <= MIN_SEGMENT_LENGTH) (rounds k segs)) as Hk.
  { apply rounds_bounded. eapply Forall_impl; [apply maxLength_bound |].
    cbv beta. intros s Hs. pose proof (proj1 (rounds_bound_spec (maxLength segs))).
    subst k. lia. }
  assert (final = rounds k segs) as E.
  { subst final. rewrite rounds_add. by apply rounds_stable. }
  rewrite E. split; [exact Hk |]. split; [by apply allDone_Forall |].
  split; [| done].
  rewrite split_round_pieces.
  by destruct (flat_map_pieces_small _ Hk) as [-> ->].
Qed.

Lemma rounds_reach_fixed_point_witness :
  rounds_bound (maxLength [repeat_unit unit_A 80]) <= 3
  /\ length <$> rounds 3 [repeat_unit unit_A 80] = [10; 10; 10; 10; 10; 10; 10; 10].
Proof.
  destruct (rounds_reach_fixed_point [repeat_unit unit_A 80]) as [[_ Hmin] _].
  split; [| reflexivity].
  apply Hmin. vm_compute. lia.
Defined.



(** C5: the done flag returned is true exactly when a round of splitting
    would leave the working segments as they are; whenever done=false is
    returned at least one segment was split, and the segment sequence sent
    in the write differs from the working sequence and is strictly longer;
    a write the store applied has persisted that sequence.  That the
    sequence is persisted whenever done=false is returned fails of the
    code: line 98 tests the error of the write for truthiness only, so a
    write that was not applied and is answered with a falsy error (the
    empty string, 0, false or null) passes for a success; done=false is
    returned and the record keeps the segments that were read. *)
Theorem done_false_may_persist_nothing :
  (forall segs : list jsstring,
      allDone segs = true <-> fst (split_round segs) = segs)
  /\ (forall (job : KladosJob) (tr : list obs) (out : list Output),
      behaves (processJob job) tr (inr out) ->
      exists target,
        let w := working_segments (properties target) in
        OFetch (target_entity (request job)) (inr target) ∈ tr
        /\ out = [{| entity_id := id target; done := allDone w |}]
        /\ (allDone w = false ->
            1 <= snd (split_round w)
            /\ fst (split_round w) <> w
            /\ length w < length (fst (split_round w))
            /\ exists body u,
                OPut (id target) body u ∈ tr
                /\ segments (put_properties body) = Some (fst (split_round w))
                /\ truthy_opt (put_error u) = false))
  /\ (forall (job : KladosJob) (sched : list turn) (st : Store) (rid : string),
      let x := exec (processJob job) sched st in
      let w := working_segments (rec_props (disturb st (turn_at 0 sched))) in
      outcome_of x = inr [{| entity_id := rid; done := false |}] ->
      fault (turn_at 2 sched) = None ->
      segments (rec_props (final_store x)) = Some (fst (split_round w)))
  /\ (forall (job : KladosJob) (sched : list turn) (st : Store) (e : api_error),
      let st1 := disturb st (turn_at 0 sched) in
      let st3 := disturb (disturb st1 (turn_at 1 sched)) (turn_at 2 sched) in
      let x := exec (processJob job) sched st in
      target_entity (request job) = rec_id st ->
      fault (turn_at 0 sched) = None ->
      fault (turn_at 1 sched) = None ->
      fault (turn_at 2 sched) = Some e ->
      truthy e = false ->
      length (working_segments (rec_props st1)) <= spread_limit ->
      allDone (working_segments (rec_props st1)) = false ->
      outcome_of x = inr [{| entity_id := rec_id st; done := false |}]
      /\ final_store x = st3
      /\ (alone sched -> final_store x = st)).
Proof.
  assert (forall segs : list jsstring,
             allDone segs = false ->
             1 <= snd (split_round segs)
             /\ length segs < length (fst (split_round segs))) as Hgrow.
  { intros segs Hd. rewrite split_round_pieces. cbn [fst snd].
    rewrite length_flat_map_pieces.
    pose proof (over_threshold_splits segs Hd). lia. }
  split; [| split; [| split]].
  - intros segs. split.
    + intros Hd. apply allDone_Forall in Hd. rewrite split_round_pieces.
      by destruct (flat_map_pieces_small segs Hd) as [-> _].
    + intros Hfix. destruct (allDone segs) eqn:Hd; [done |].
      destruct (Hgrow segs Hd) as [_ Hlen]. rewrite Hfix in Hlen. lia.
  - intros job tr out Hb. apply processJob_invocation in Hb.
    assert (forall o, o ∈ store_calls tr -> o ∈ tr) as Hsub.
    { intros o Ho. by apply list_elem_of_filter in Ho as [_ Ho]. }
    inversion Hb as [| | target Hle Hd Hc | | | target r tip u Hle Hd Htip Hu Hc];
      subst; exists target; cbv zeta; rewrite Hd.
    + split; [apply Hsub; rewrite <- Hc; apply list_elem_of_here |].
      split; [done |]. discriminate.
    + split; [apply Hsub; rewrite <- Hc; apply list_elem_of_here |].
      split; [done |]. intros _.
      destruct (Hgrow _ Hd) as [H1 H2].
      split; [exact H1 |]. split; [intros E; rewrite E in H2; lia |].
      split; [exact H2 |].
      eexists _, u. split.
      { apply Hsub. rewrite <- Hc. do 2 apply list_elem_of_further.
        apply list_elem_of_here. }
      split; [reflexivity | exact Hu].
  - intros job sched st rid. cbv zeta. intros Hout Hf2.
    pose proof (exec_processJob_cases job sched st) as H. cbv zeta in H.
    destruct H as [(e0 & _ & _ & _ & Ho) | [(target & _ & _ & _ & _ & Ho)
      | [(target & _ & _ & _ & _ & _ & Ho) | [(target & _ & _ & _ & _ & _ & _ & Ho)
      | (target & tip & Hr & _ & _ & _ & _ & Hfin & Ho)]]]];
      rewrite Ho in Hout; try discriminate Hout.
    apply serve_fetch_inr in Hr as (-> & _).
    rewrite Hf2 in Hout, Hfin. rewrite Hfin.
    match type of Hout with context [serve_put ?s ?t ?b None] =>
      destruct (put_error (snd (serve_put s t b None))) as [e |] eqn:Hu end.
    + exfalso. revert Hu Hout. unfold serve_put.
      repeat case_decide; cbn; intros [= <-]; done.
    + apply serve_put_applied in Hu as (_ & _ & _ & ->). reflexivity.
  - intros job sched st e. cbv zeta. intros Ht Hf0 Hf1 Hf2 He Hlen Hd.
    destruct (exec_write_falsy_error job sched st e Ht Hf0 Hf1 Hf2 He Hlen Hd)
      as (Ho & Hfin & _).
    split; [exact Ho |]. split; [exact Hfin |].
    intros Ha. by rewrite Hfin, !disturb_alone.
Qed.


(** C7: when the tip fetch fails (an error, or no tip in the response) the
    invocation raises an error, returns no result and makes no write; when
    the write is answered with a truthy error it raises an error and
    returns no result; and after an invocation that raised, the record is
    as the writes of others left it, with nothing written by the
    invocation (unchanged when nobody else writes).  That every failed
    write raises fails of the code: line 98 tests the error of the write
    for truthiness only, where line 79 also tests that a tip was returned,
    so a write that was not applied and is answered with a falsy error
    (the empty string, 0, false or null) is taken for a success, and the
    invocation returns [{entity_id, done: false}] with the record
    unchanged. *)
Theorem failed_write_with_falsy_error_passes_for_success (job : KladosJob) :
  (forall (tr : list obs) (o : outcome (list Output)),
      behaves (processJob job) tr o ->
      (forall rid r,
          OTip rid r ∈ tr -> tip_ok r = None ->
          o = inl (Error "Failed to get entity tip: " (tip_error r))
          /\ Forall (fun c => is_write c = false) tr)
      /\ (forall rid body u,
          OPut rid body u ∈ tr ->
          o = if truthy_opt (put_error u)
              then inl (Error "Failed to update entity: " (put_error u))
              else inr [{| entity_id := rid; done := false |}])
      /\ (forall out c,
          o = inr out -> c ∈ tr ->
          match c with
          | OTip _ r => is_Some (tip_ok r)
          | OPut _ _ u => truthy_opt (put_error u) = false
          | _ => True
          end))
  /\ (forall (sched : list turn) (st : Store) (e : exn),
      outcome_of (exec (processJob job) sched st) = inl e ->
      (exists n,
          final_store (exec (processJob job) sched st)
          = fold_left disturb (take n sched) st)
      /\ (alone sched -> final_store (exec (processJob job) sched st) = st))
  /\ (forall (sched : list turn) (st : Store) (e : api_error),
      let st1 := disturb st (turn_at 0 sched) in
      let st3 := disturb (disturb st1 (turn_at 1 sched)) (turn_at 2 sched) in
      let x := exec (processJob job) sched st in
      target_entity (request job) = rec_id st ->
      fault (turn_at 0 sched) = None ->
      fault (turn_at 1 sched) = None ->
      fault (turn_at 2 sched) = Some e ->
      truthy e = false ->
      length (working_segments (rec_props st1)) <= spread_limit ->
      allDone (working_segments (rec_props st1)) = false ->
      outcome_of x = inr [{| entity_id := rec_id st; done := false |}]
      /\ final_store x = st3
      /\ exists body,
          snd <$> store_trace (trace_of x)
          = [OFetch (rec_id st)
               (inr {| id := rec_id st; properties := rec_props st1 |});
             OTip (rec_id st)
               {| tip_data :=
                    Some {| cid := rec_cid (disturb st1 (turn_at 1 sched)) |};
                  tip_error := None |};
             OPut (rec_id st) body {| put_error := Some e |}]).
Proof.
  split; [| split].
  - intros tr o Hb. apply processJob_invocation in Hb.
    assert (forall c, c ∈ tr -> is_log c = false -> c ∈ store_calls tr) as Hsub
      by (intros c; apply elem_of_store_calls).
    split; [| split].
    + intros rid r Hin Hbad. apply Hsub in Hin; [| done].
      inversion Hb as [e Hc | t0 Hlt Hc | t0 Hle Hd Hc | t0 r0 Hle Hd Hno Hc
                       | t0 r0 tip u Hle Hd Htip Hu Hc
                       | t0 r0 tip u Hle Hd Htip Hu Hc];
        subst; rewrite <- Hc in Hin; pin_call Hin.
      split; [done |].
      apply Forall_store_calls; [done |]. rewrite <- Hc. by repeat constructor.
    + intros rid body u Hin. apply Hsub in Hin; [| done].
      inversion Hb as [e0 Hc | t0 Hlt Hc | t0 Hle Hd Hc | t0 r0 Hle Hd Hno Hc
                       | t0 r0 tip u0 Hle Hd Htip Hu Hc
                       | t0 r0 tip u0 Hle Hd Htip Hu Hc];
        subst; rewrite <- Hc in Hin; pin_call Hin; by rewrite Hu.
    + intros out c -> Hin.
      destruct c as [entry | tgt r | rid r | rid body u]; try done.
      * apply Hsub in Hin; [| done].
        inversion Hb as [| | t0 Hle Hd Hc | | | t0 r0 tip u0 Hle Hd Htip Hu Hc];
          subst; rewrite <- Hc in Hin; pin_call Hin. by eexists.
      * apply Hsub in Hin; [| done].
        inversion Hb as [| | t0 Hle Hd Hc | | | t0 r0 tip u0 Hle Hd Htip Hu Hc];
          subst; rewrite <- Hc in Hin; pin_call Hin. done.
  - intros sched st e He.
    pose proof (exec_processJob_cases job sched st) as H. cbv zeta in H.
    pose proof (disturb_take sched 0 st) as E1.
    pose proof (disturb_take sched 1 st) as E2.
    pose proof (disturb_take sched 2 st) as E3.
    rewrite take_0 in E1. cbn [fold_left] in E1.
    rewrite E1 in E2. rewrite E2 in E3.
    destruct H as [(e0 & Hr & Htr & Hf & Ho) | [(target & Hr & Hlt & Htr & Hf & Ho)
      | [(target & Hr & Hle & Hd & Htr & Hf & Ho)
      | [(target & Hr & Hle & Hd & Hno & Htr & Hf & Ho)
      | (target & tip & Hr & Hle & Hd & Htip & Htr & Hf & Ho)]]]].
    + split; [exists 1; by rewrite Hf, E1 |].
      intros Ha. by rewrite Hf, disturb_alone.
    + split; [exists 1; by rewrite Hf, E1 |].
      intros Ha. by rewrite Hf, disturb_alone.
    + rewrite Ho in He. discriminate.
    + split; [exists 2; by rewrite Hf, E2 |].
      intros Ha. by rewrite Hf, !disturb_alone.
    + set (w := serve_put _ _ _ _) in *. rewrite Ho in He.
      destruct (put_error (snd w)) as [e'' |] eqn:Hu; [| discriminate].
      apply serve_put_rejected in Hu. fold w in Hu.
      split; [exists 3; by rewrite Hf, Hu, E3 |].
      intros Ha. by rewrite Hf, Hu, !disturb_alone.
  - intros sched st e. cbv zeta. apply exec_write_falsy_error.
Qed.

(** C8, amended: a write of the invocation that is accepted was made at
    the revision at which the version token was fetched, so the record was
    not modified between the tip fetch and the write; the revision that was
    read may be an earlier one. *)
Theorem accepted_write_unmodified_since_tip
    (job : KladosJob) (sched : list turn) (st : Store) (w : nat) :
  let x := exec (processJob job) sched st in
  write_revision (trace_of x) = Some w ->
  token_revision (trace_of x) = Some w
  /\ interference (turn_at 2 sched) = []
  /\ (exists rid body u,
        (w, OPut rid body u) ∈ trace_of x /\ expect_tip body = w /\ put_error u = None)
  /\ exists r, read_revision (trace_of x) = Some r /\ r <= w.
Proof.
  cbv zeta. unfold write_revision, token_revision, read_revision.
  rewrite !(revision_of_store_trace _ (trace_of _)) by done.
  assert (forall c o, (c, o) ∈ store_trace (trace_of (exec (processJob job) sched st)) ->
             (c, o) ∈ trace_of (exec (processJob job) sched st)) as Hsub.
  { intros c o Ho. by apply list_elem_of_filter in Ho as [_ Ho]. }
  pose proof (exec_processJob_cases job sched st) as H. cbv zeta in H.
  destruct H as [(e & Hr & Htr & Hf & Ho) | [(target & Hr & Hlt & Htr & Hf & Ho)
    | [(target & Hr & Hle & Hd & Htr & Hf & Ho)
    | [(target & Hr & Hle & Hd & Hno & Htr & Hf & Ho)
    | (target & tip & Hr & Hle & Hd & Htip & Htr & Hf & Ho)]]]];
    rewrite Htr; try discriminate.
  set (w3 := serve_put _ _ _ _) in *.
  unfold revision_of. rewrite !filter_cons. cbn.
  destruct (put_error (snd w3)) as [e |] eqn:Hu; cbn; [discriminate |].
  intros [= <-].
  pose proof Hu as Hu0.
  apply serve_put_applied in Hu as (_ & _ & Hcid & _). cbn [expect_tip] in Hcid.
  apply serve_tip_ok in Htip as (-> & _). cbn [cid] in Hcid.
  pose proof (rec_cid_disturb
                (disturb (disturb st (turn_at 0 sched)) (turn_at 1 sched))
                (turn_at 2 sched)) as E3.
  pose proof (rec_cid_disturb (disturb st (turn_at 0 sched)) (turn_at 1 sched)) as E2.
  split; [by rewrite Hcid |].
  split; [destruct (interference (turn_at 2 sched)); [done | cbn [length] in E3; lia] |].
  split.
  - eexists _, _, _. split.
    + apply Hsub. rewrite Htr. do 2 apply list_elem_of_further.
      apply list_elem_of_here.
    + cbn [expect_tip cid]. split; [exact Hcid | exact Hu0].
  - eexists. split; [reflexivity |]. cbn [fst]. clear - E2 E3. lia.
Qed.

(** C9: run from the same record under the same schedule with two
    recursion depths, the invocation returns the same result, makes the
    same calls to the store up to the last_split_depth written, and leaves
    records with the same segments, split_count and everything else but
    last_split_depth; the two records differ at all only when a write was
    made, and then only in that stamp. *)
Theorem depth_only_stamps_the_write
    (d1 d2 : Z) (rq : KladosRequest) (sched : list turn) (st : Store) :
  let x1 := exec (processJob {| recurseDepth := d1; request := rq |}) sched st in
  let x2 := exec (processJob {| recurseDepth := d2; request := rq |}) sched st in
  let blur := fun c : nat * obs => (fst c, forget_depth_obs (snd c)) in
  outcome_of x1 = outcome_of x2
  /\ blur <$> store_trace (trace_of x1) = blur <$> store_trace (trace_of x2)
  /\ segments (rec_props (final_store x1)) = segments (rec_props (final_store x2))
  /\ split_count (rec_props (final_store x1))
     = split_count (rec_props (final_store x2))
  /\ rec_id (final_store x1) = rec_id (final_store x2)
  /\ rec_cid (final_store x1) = rec_cid (final_store x2)
  /\ forget_depth (rec_props (final_store x1))
     = forget_depth (rec_props (final_store x2))
  /\ (final_store x1 = final_store x2
      \/ (exists rid, outcome_of x1 = inr [{| entity_id := rid; done := false |}])
         /\ last_split_depth (rec_props (final_store x1)) = Some d1
         /\ last_split_depth (rec_props (final_store x2)) = Some d2).
Proof.
  cbv zeta.
  assert (forall p q : SplitterTargetProps,
             forget_depth p = forget_depth q ->
             segments p = segments q /\ split_count p = split_count q) as Hproj.
  { intros p q E. split.
    - exact (f_equal segments E).
    - exact (f_equal split_count E). }
  pose proof (exec_processJob_cases {| recurseDepth := d1; request := rq |} sched st)
    as H1.
  pose proof (exec_processJob_cases {| recurseDepth := d2; request := rq |} sched st)
    as H2.
  cbv zeta in H1, H2. cbn [request recurseDepth] in H1, H2.
  destruct H1 as [(e & Hr & Htr & Hf & Ho) | [(target & Hr & Hlt & Htr & Hf & Ho)
    | [(target & Hr & Hle & Hd & Htr & Hf & Ho)
    | [(target & Hr & Hle & Hd & Hno & Htr & Hf & Ho)
    | (target & tip & Hr & Hle & Hd & Htip & Htr & Hf & Ho)]]]];
  destruct H2 as [(e' & Hr' & Htr' & Hf' & Ho')
    | [(target' & Hr' & Hlt' & Htr' & Hf' & Ho')
    | [(target' & Hr' & Hle' & Hd' & Htr' & Hf' & Ho')
    | [(target' & Hr' & Hle' & Hd' & Hno' & Htr' & Hf' & Ho')
    | (target' & tip' & Hr' & Hle' & Hd' & Htip' & Htr' & Hf' & Ho')]]]];
  rewrite Hr in Hr'; simplify_eq; try congruence; try lia.
  - rewrite Htr, Htr', Hf, Hf', Ho, Ho'. repeat split; try done. by left.
  - rewrite Htr, Htr', Hf, Hf', Ho, Ho'. repeat split; try done. by left.
  - rewrite Htr, Htr', Hf, Hf', Ho, Ho'. repeat split; try done. by left.
  - rewrite Htr, Htr', Hf, Hf', Ho, Ho'. repeat split; try done. by left.
  - rewrite Htr, Htr', Hf, Hf', Ho, Ho'.
    destruct (serve_put_forget
                (disturb (disturb (disturb st (turn_at 0 sched)) (turn_at 1 sched))
                   (turn_at 2 sched))
                (id target')
                {| expect_tip := cid tip;
                   put_properties :=
                     written_properties {| recurseDepth := d1; request := rq |}
                       target' |}
                {| expect_tip := cid tip;
                   put_properties :=
                     written_properties {| recurseDepth := d2; request := rq |}
                       target' |}
                (fault (turn_at 2 sched)) eq_refl
                (written_properties_forget d1 d2 rq target'))
      as (Hsnd & Hid & Hcid & Hprops & Hsame).
    cbv zeta in *.
    destruct (Hproj _ _ Hprops) as [Hsegs Hcount].
    rewrite <- Hsnd.
    repeat split; try done.
    + match goal with |- context [serve_put ?s ?r ?b ?f] =>
        destruct (put_error (snd (serve_put s r b f))) as [e |] eqn:Hu end.
      * left. by eapply Hsame.
      * right. split; [by eexists |].
        pose proof Hu as Hu'. rewrite Hsnd in Hu'.
        apply serve_put_applied in Hu as (_ & _ & _ & ->).
        apply serve_put_applied in Hu' as (_ & _ & _ & ->).
        done.
Qed.

(** C10: in every write the invocation makes, each property other than
    segments, split_count and last_split_depth (text and label among
    them) has the value it had in the record as read at the start of the
    step. *)
Theorem write_carries_other_properties_over
    (job : KladosJob) (tr : list obs) (o : outcome (list Output))
    (target : Entity) (rid : string) (body : PutBody) (u : PutResponse) :
  behaves (processJob job) tr o ->
  OFetch (target_entity (request job)) (inr target) ∈ tr ->
  OPut rid body u ∈ tr ->
  text (put_properties body) = text (properties target)
  /\ extra (put_properties body) = extra (properties target)
  /\ forall key : string,
      key <> "segments" -> key <> "split_count" -> key <> "last_split_depth" ->
      prop_lookup (put_properties body) key = prop_lookup (properties target) key.
Proof.
  intros Hb Hfetch Hput.
  apply processJob_invocation in Hb.
  apply elem_of_store_calls in Hfetch; [| done].
  apply elem_of_store_calls in Hput; [| done].
  assert (text (put_properties body) = text (properties target)
          /\ extra (put_properties body) = extra (properties target)) as [Ht He].
  { inversion Hb as [e Hc | t0 Hlt Hc | t0 Hle Hd Hc | t0 r Hle Hd Hno Hc
                     | t0 r tip u0 Hle Hd Htip Hu Hc
                     | t0 r tip u0 Hle Hd Htip Hu Hc];
      subst; rewrite <- Hc in Hfetch, Hput;
      pin_call Hfetch; pin_call Hput; done. }
  split; [exact Ht |]. split; [exact He |].
  intros key Hs Hc Hl. unfold prop_lookup. rewrite Ht, He.
  apply String.eqb_neq in Hs, Hc, Hl. rewrite Hs, Hc, Hl. done.
Qed.


(** * Further properties of the code *)

(** ** The round of splitting, beyond the claims *)

Section SplittingMore.

Implicit Types (s : jsstring) (segs : list jsstring).

Lemma concat_pieces s : concat (pieces s) = s.
Proof.
  unfold pieces, halves. case_decide; cbn [concat]; rewrite app_nil_r; [| done].
  apply take_drop.
Qed.

Lemma concat_flat_map_pieces segs : concat (flat_map pieces segs) = concat segs.
Proof.
  induction segs as [| s segs IH]; [done |].
  cbn [flat_map concat]. by rewrite concat_app, concat_pieces, IH.
Qed.

Lemma concat_rounds n : forall segs, concat (rounds n segs) = concat segs.
Proof.
  induction n as [| n IH]; intros segs; cbn [rounds]; [done |].
  rewrite IH, split_round_pieces. apply concat_flat_map_pieces.
Qed.

Lemma pieces_at_least m s :
  m <= 5 -> m <= length s -> Forall (fun p => m <= length p) (pieces s).
Proof.
  intros Hm Hs. unfold pieces. case_decide as Hlt; [| by repeat constructor].
  destruct (halves_lengths s) as [E1 E2]. unfold halves, MIN_SEGMENT_LENGTH in *.
  pose proof (Nat.div_mod_eq (length s) 2).
  pose proof (Nat.mod_upper_bound (length s) 2).
  pose proof (Nat.div_mod_eq (length s + 1) 2).
  pose proof (Nat.mod_upper_bound (length s + 1) 2).
  repeat constructor; rewrite ?E1, ?E2; lia.
Qed.

Lemma rounds_at_least m n : forall segs,
  m <= 5 ->
  Forall (fun s => m <= length s) segs ->
  Forall (fun s => m <= length s) (rounds n segs).
Proof.
  induction n as [| n IH]; intros segs Hm H; cbn [rounds]; [done |].
  apply IH; [done |]. rewrite split_round_pieces. cbn [fst].
  induction H as [| s segs Hs _ IHs]; cbn [flat_map]; [constructor |].
  apply Forall_app. split; [by apply pieces_at_least | exact IHs].
Qed.

Lemma length_concat_bounds (lo hi : nat) segs :
  Forall (fun s => lo <= length s <= hi) segs ->
  lo * length segs <= length (concat segs) <= hi * length segs.
Proof.
  induction 1 as [| s segs Hs _ IH]; cbn [concat length]; [lia |].
  rewrite length_app. lia.
Qed.

Lemma pieces_keep_long k s :
  MIN_SEGMENT_LENGTH * 2 ^ S k < length s ->
  Exists (fun p => MIN_SEGMENT_LENGTH * 2 ^ k < length p) (pieces s).
Proof.
  intros H. rewrite Nat.pow_succ_r' in H.
  assert (0 < 2 ^ k) by (apply Nat.neq_0_lt_0, Nat.pow_nonzero; lia).
  unfold pieces. case_decide as Hlt.
  - destruct (halves_lengths s) as [E1 E2]. unfold halves.
    pose proof (Nat.div_mod_eq (length s + 1) 2).
    pose proof (Nat.mod_upper_bound (length s + 1) 2).
    apply Exists_cons_tl, Exists_cons_hd. rewrite E2. lia.
  - unfold MIN_SEGMENT_LENGTH in *. lia.
Qed.

Lemma rounds_keep_long n : forall segs,
  Exists (fun s => MIN_SEGMENT_LENGTH * 2 ^ n < length s) segs ->
  Exists (fun s => MIN_SEGMENT_LENGTH < length s) (rounds n segs).
Proof.
  induction n as [| n IH]; intros segs H; cbn [rounds].
  - eapply Exists_impl; [exact H |]. cbv beta. intros s Hs.
    rewrite Nat.pow_0_r in Hs. lia.
  - apply IH. rewrite split_round_pieces. cbn [fst].
    induction H as [s segs Hs | s segs _ IHs]; cbn [flat_map]; apply Exists_app.
    + left. by apply pieces_keep_long.
    + right. exact IHs.
Qed.

Lemma maxLength_attained segs :
  0 < maxLength segs -> Exists (fun s => length s = maxLength segs) segs.
Proof.
  unfold maxLength. destruct segs as [| s0 segs]; [cbn; lia |].
  change (0 <? length (s0 :: segs)) with true. cbv iota. intros _.
  assert (max_list (length <$> s0 :: segs) ∈ length <$> s0 :: segs) as Hin
    by (by apply max_list_elem_of).
  apply list_elem_of_fmap in Hin as (s & E & Hs).
  apply Exists_exists. exists s. done.
Qed.

Lemma pieces_exact k s :
  length s = MIN_SEGMENT_LENGTH * 2 ^ S k ->
  exists a b, pieces s = [a; b]
    /\ length a = MIN_SEGMENT_LENGTH * 2 ^ k
    /\ length b = MIN_SEGMENT_LENGTH * 2 ^ k.
Proof.
  intros H. rewrite Nat.pow_succ_r' in H.
  assert (0 < 2 ^ k) by (apply Nat.neq_0_lt_0, Nat.pow_nonzero; lia).
  unfold pieces. case_decide as Hlt; [| unfold MIN_SEGMENT_LENGTH in *; lia].
  destruct (halves_lengths s) as [E1 E2]. unfold halves.
  pose proof (Nat.div_mod_eq (length s) 2).
  pose proof (Nat.mod_upper_bound (length s) 2).
  pose proof (Nat.div_mod_eq (length s + 1) 2).
  pose proof (Nat.mod_upper_bound (length s + 1) 2).
  eexists _, _. split; [done |]. rewrite E1, E2. lia.
Qed.

Lemma rounds_exact k : forall segs,
  Forall (fun s => length s = MIN_SEGMENT_LENGTH * 2 ^ k) segs ->
  Forall (fun s => length s = MIN_SEGMENT_LENGTH) (rounds k segs)
  /\ length (rounds k segs) = 2 ^ k * length segs.
Proof.
  induction k as [| k IH]; intros segs H; cbn [rounds].
  - split; [| simpl; lia].
    eapply Forall_impl; [exact H |]. cbv beta. intros s Hs.
    rewrite Nat.pow_0_r in Hs. lia.
  - assert (Forall (fun s => length s = MIN_SEGMENT_LENGTH * 2 ^ k)
              (fst (split_round segs))
            /\ length (fst (split_round segs)) = 2 * length segs) as [Hh Hl].
    { rewrite split_round_pieces. cbn [fst].
      induction H as [| s segs Hs _ [IH1 IH2]]; cbn [flat_map]; [done |].
      destruct (pieces_exact k s Hs) as (a & b & -> & Ha & Hb).
      split.
      - cbn [app]. by repeat constructor.
      - cbn [app length]. lia. }
    destruct (IH _ Hh) as [H1 H2]. split; [exact H1 |].
    rewrite H2, Hl, Nat.pow_succ_r'. lia.
Qed.

End SplittingMore.

(** X1: a round only moves the cuts: the segments it produces, joined in
    order, are the very text the input segments join to, after one round
    and after any number of rounds, and what an invocation writes as
    segments joins to the text of the working segments it read. *)
Theorem splitting_preserves_the_text :
  (forall (n : nat) (segs : list jsstring),
      concat (fst (split_round segs)) = concat segs
      /\ concat (rounds n segs) = concat segs)
  /\ forall (job : KladosJob) (tr : list obs) (o : outcome (list Output))
       (target : Entity) (rid : string) (body : PutBody) (u : PutResponse),
      behaves (processJob job) tr o ->
      OFetch (target_entity (request job)) (inr target) ∈ tr ->
      OPut rid body u ∈ tr ->
      exists written,
        segments (put_properties body) = Some written
        /\ concat written = concat (working_segments (properties target)).
Proof.
  split.
  - intros n segs. split; [| apply concat_rounds].
    rewrite split_round_pieces. apply concat_flat_map_pieces.
  - intros job tr o target rid body u Hb Hfetch Hput.
    apply processJob_invocation in Hb.
    apply elem_of_store_calls in Hfetch; [| done].
    apply elem_of_store_calls in Hput; [| done].
    exists (fst (split_round (working_segments (properties target)))).
    split.
    + inversion Hb as [e Hc | t0 Hlt Hc | t0 Hle Hd Hc | t0 r Hle Hd Hno Hc
                       | t0 r tip u0 Hle Hd Htip Hu Hc
                       | t0 r tip u0 Hle Hd Htip Hu Hc];
        subst; rewrite <- Hc in Hfetch, Hput;
        pin_call Hfetch; pin_call Hput; done.
    + rewrite split_round_pieces. apply concat_flat_map_pieces.
Qed.

(** X2: halving never makes a segment shorter than 5 characters: when
    every segment has at least 5 characters (a text longer than 10, say),
    the segments the rounds end with all have between 5 and 10 characters,
    so there are at least a tenth and at most a fifth as many segments as
    characters. *)
Theorem final_segments_between_five_and_ten (segs : list jsstring) (more : nat) :
  Forall (fun s => 5 <= length s) segs ->
  let final := rounds (rounds_bound (maxLength segs) + more) segs in
  Forall (fun s => 5 <= length s <= MIN_SEGMENT_LENGTH) final
  /\ 5 * length final <= length (concat segs) <= MIN_SEGMENT_LENGTH * length final.
Proof.
  intros Hfive final.
  assert (Forall (fun s => 5 <= length s <= MIN_SEGMENT_LENGTH) final) as Hfinal.
  { subst final. rewrite rounds_add.
    assert (Forall (fun s => length s <= MIN_SEGMENT_LENGTH)
              (rounds (rounds_bound (maxLength segs)) segs)) as Hk.
    { apply rounds_bounded. eapply Forall_impl; [apply maxLength_bound |].
      cbv beta. intros s Hs.
      pose proof (proj1 (rounds_bound_spec (maxLength segs))). lia. }
    rewrite rounds_stable by done.
    pose proof (rounds_at_least 5 (rounds_bound (maxLength segs)) segs
                  (le_n 5) Hfive) as Hlow.
    rewrite Forall_forall in *. intros s Hs. split; [by apply Hlow | by apply Hk]. }
  split; [exact Hfinal |].
  rewrite <- (concat_rounds (rounds_bound (maxLength segs) + more) segs).
  fold final. by apply length_concat_bounds.
Qed.

Lemma final_segments_between_five_and_ten_witness :
  Forall (fun s => 5 <= length s <= MIN_SEGMENT_LENGTH)
    (rounds (rounds_bound (maxLength [repeat_unit unit_A 23]) + 0)
       [repeat_unit unit_A 23]).
Proof.
  refine (proj1 (final_segments_between_five_and_ten [repeat_unit unit_A 23] 0 _)).
  repeat constructor.
Defined.

(** X3: the bound on the number of rounds is exact: before that many
    rounds have run, some segment is still longer than 10 and the all-done
    check is false. *)
Theorem fewer_rounds_are_not_enough (segs : list jsstring) (n : nat) :
  n < rounds_bound (maxLength segs) ->
  allDone (rounds n segs) = false
  /\ Exists (fun s => MIN_SEGMENT_LENGTH < length s) (rounds n segs).
Proof.
  intros Hn.
  assert (MIN_SEGMENT_LENGTH * 2 ^ n < maxLength segs) as Hlong.
  { destruct (decide (maxLength segs <= MIN_SEGMENT_LENGTH * 2 ^ n)) as [Hle |]; [| lia].
    pose proof (proj2 (rounds_bound_spec (maxLength segs)) n Hle). lia. }
  assert (Exists (fun s => MIN_SEGMENT_LENGTH < length s) (rounds n segs)) as Hex.
  { apply rounds_keep_long.
    eapply Exists_impl; [apply maxLength_attained; lia |].
    cbv beta. intros s ->. exact Hlong. }
  split; [| exact Hex]. by apply allDone_false_Exists.
Qed.

Lemma fewer_rounds_are_not_enough_witness :
  allDone (rounds 2 [repeat_unit unit_A 80]) = false.
Proof.
  refine (proj1 (fewer_rounds_are_not_enough [repeat_unit unit_A 80] 2 _)).
  vm_compute. lia.
Defined.

(** X4: a text of exactly 10 * 2^k characters ends, after k rounds, as
    2^k segments of exactly 10 characters each (80 gives 8, 320 gives 32). *)
Theorem power_of_two_text_splits_evenly (k : nat) (t : jsstring) :
  length t = MIN_SEGMENT_LENGTH * 2 ^ k ->
  Forall (fun s => length s = MIN_SEGMENT_LENGTH) (rounds k [t])
  /\ length (rounds k [t]) = 2 ^ k
  /\ allDone (rounds k [t]) = true
  /\ concat (rounds k [t]) = t.
Proof.
  intros Ht.
  destruct (rounds_exact k [t]) as [Hall Hlen]; [by repeat constructor |].
  split; [exact Hall |]. split; [cbn [length] in Hlen; lia |]. split.
  - apply allDone_Forall. eapply Forall_impl; [exact Hall |].
    cbv beta. intros s ->. done.
  - rewrite concat_rounds. cbn [concat]. apply app_nil_r.
Qed.

Lemma power_of_two_text_splits_evenly_witness :
  length (rounds 5 [repeat_unit 66%N 320]) = 2 ^ 5.
Proof.
  refine (proj1 (proj2 (power_of_two_text_splits_evenly 5 (repeat_unit 66%N 320) _))).
  reflexivity.
Defined.
(** ** One invocation, beyond the claims *)

Section InvocationMore.

Lemma rounds_done_at_bound segs :
  allDone (rounds (rounds_bound (maxLength segs)) segs) = true.
Proof.
  apply allDone_Forall, rounds_bounded.
  eapply Forall_impl; [apply maxLength_bound |]. cbv beta. intros s Hs.
  pose proof (proj1 (rounds_bound_spec (maxLength segs))). lia.
Qed.

Lemma rounds_not_done_before segs n :
  n < rounds_bound (maxLength segs) -> allDone (rounds n segs) = false.
Proof.
  intros Hn. apply allDone_false_Exists, rounds_keep_long.
  assert (MIN_SEGMENT_LENGTH * 2 ^ n < maxLength segs) as Hlong.
  { destruct (decide (maxLength segs <= MIN_SEGMENT_LENGTH * 2 ^ n)) as [Hle |]; [| lia].
    pose proof (proj2 (rounds_bound_spec (maxLength segs)) n Hle). lia. }
  eapply Exists_impl; [apply maxLength_attained; lia |].
  cbv beta. intros s ->. exact Hlong.
Qed.

(** An invocation with every call served and nobody else writing. *)
Lemma exec_served job st :
  target_entity (request job) = rec_id st ->
  length (working_segments (rec_props st)) <= spread_limit ->
  let x := exec (processJob job) [] st in
  let target := {| id := rec_id st; properties := rec_props st |} in
  if allDone (working_segments (rec_props st)) then
    final_store x = st
    /\ outcome_of x = inr [{| entity_id := rec_id st; done := true |}]
  else
    final_store x
    = {| rec_id := rec_id st; rec_cid := S (rec_cid st);
         rec_props := written_properties job target |}
    /\ outcome_of x = inr [{| entity_id := rec_id st; done := false |}].
Proof.
  intros Ht Hlen. cbv zeta.
  pose proof (exec_processJob_cases job [] st) as H. cbv zeta in H.
  change (turn_at 0 []) with quiet in H. change (turn_at 1 []) with quiet in H.
  change (turn_at 2 []) with quiet in H.
  change (disturb st quiet) with st in H. cbn [fault quiet] in H.
  rewrite Ht, serve_fetch_served in H.
  destruct H as [(e & Hr & _) | [(target & Hr & Hlt & _)
    | [(target & Hr & _ & Hd & _ & Hf & Ho)
    | [(target & Hr & _ & Hd & Hno & _)
    | (target & tip & Hr & _ & Hd & Htip & _ & Hf & Ho)]]]];
    try discriminate Hr; injection Hr as <-; cbn [id properties] in *;
    try lia; rewrite Hd.
  - done.
  - rewrite serve_tip_served in Hno. discriminate Hno.
  - rewrite serve_tip_served in Htip. cbn in Htip. injection Htip as <-.
    cbn [cid] in *. rewrite serve_put_served in Hf, Ho by done. done.
Qed.

Lemma working_segments_written job target :
  allDone (working_segments (properties target)) = false ->
  working_segments (written_properties job target)
  = fst (split_round (working_segments (properties target))).
Proof.
  intros Hd. unfold written_properties, working_segments at 1. cbn [segments text].
  pose proof (over_threshold_splits _ Hd) as Hs.
  pose proof (length_flat_map_pieces (working_segments (properties target))) as Hl.
  rewrite split_round_pieces. cbn [fst].
  destruct (flat_map pieces (working_segments (properties target))) as [| s l];
    [cbn [length] in Hl; lia | done].
Qed.

End InvocationMore.

(** X5: when fetchTarget rejects, the invocation rejects with the same
    reason and has made no other call to the store: no tip fetch and no
    write. *)
Theorem fetch_rejection_is_passed_on
    (job : KladosJob) (tr : list obs) (o : outcome (list Output))
    (tgt : string) (e : api_error) :
  behaves (processJob job) tr o ->
  OFetch tgt (inl e) ∈ tr ->
  o = inl (Rejected e)
  /\ store_calls tr = [OFetch (target_entity (request job)) (inl e)]
  /\ Forall (fun c => is_write c = false /\ is_tip_fetch c = false) tr.
Proof.
  intros Hb Hin. apply processJob_invocation in Hb.
  apply elem_of_store_calls in Hin; [| done].
  inversion Hb as [e0 Hc | t0 Hlt Hc | t0 Hle Hd Hc | t0 r Hle Hd Hno Hc
                   | t0 r tip u0 Hle Hd Htip Hu Hc
                   | t0 r tip u0 Hle Hd Htip Hu Hc];
    subst; rewrite <- Hc in Hin; pin_call Hin.
  split; [done |]. split; [done |].
  apply Forall_store_calls; [done |]. rewrite <- Hc. by repeat constructor.
Qed.

(** X6: whatever the store answers, an invocation makes at most three
    calls to it, in the order fetch, tip fetch, write; the tip fetch and
    the write address the id of the entity that was fetched; a write is
    made only after a tip fetch answered with a tip and without error, it
    carries that tip as its expected version, and there is never a second
    write. *)
Theorem calls_follow_fetch_tip_write
    (job : KladosJob) (tr : list obs) (o : outcome (list Output)) :
  behaves (processJob job) tr o ->
  exists r rest,
    store_calls tr = OFetch (target_entity (request job)) r :: rest
    /\ length rest <= 2
    /\ length (filter (fun c => is_write c = true) tr) <= 1
    /\ (forall rid r', OTip rid r' ∈ tr ->
        exists target, r = inr target /\ rid = id target)
    /\ (forall rid body u, OPut rid body u ∈ tr ->
        exists target r' tip,
          r = inr target /\ rid = id target
          /\ rest = [OTip rid r'; OPut rid body u]
          /\ tip_ok r' = Some tip /\ expect_tip body = cid tip).
Proof.
  intros Hb. apply processJob_invocation in Hb.
  assert (forall c, c ∈ tr -> is_log c = false -> c ∈ store_calls tr) as Hsub
    by (intros c; apply elem_of_store_calls).
  assert (filter (fun c => is_write c = true) tr
          = filter (fun c => is_write c = true) (store_calls tr)) as Hw.
  { unfold store_calls. clear. induction tr as [| c tr IH]; [done |].
    rewrite !filter_cons. destruct c; cbn [is_write is_log];
      repeat (case_decide; try done); rewrite ?filter_cons; cbn [is_write];
      repeat (case_decide; try done); by rewrite IH. }
  rewrite Hw.
  inversion Hb as [e Hc | t0 Hlt Hc | t0 Hle Hd Hc | t0 r0 Hle Hd Hno Hc
                   | t0 r0 tip u0 Hle Hd Htip Hu Hc
                   | t0 r0 tip u0 Hle Hd Htip Hu Hc]; subst;
    rewrite <- Hc in *;
    eexists _, _; (split; [reflexivity |]); (split; [cbn; lia |]);
    (split; [cbn; repeat case_decide; try done; cbn; lia |]); split.
  all: try (intros rid r' Hin; apply Hsub in Hin; [| done];
            pin_call Hin; by eexists).
  all: intros rid body u Hin; apply Hsub in Hin; [| done]; pin_call Hin.
  all: by eexists _, _, _.
Qed.

(** X7: with nobody else writing, a previous split_count that is a safe
    integer (0 when absent) and no write answered with a falsy error, the
    record's split_count after an invocation that returned a result is the
    one before exactly when the result says done=true; when it says
    done=false the count is the previous one plus one.  This is the test
    by which the end-to-end test recognises the last round. *)
Theorem split_count_changes_iff_not_done
    (job : KladosJob) (sched : list turn) (st : Store) (out : list Output) :
  alone sched ->
  safe_integer (nullish (split_count (rec_props st)) 0%Z) ->
  (forall e, fault (turn_at 2 sched) = Some e -> truthy e = true) ->
  let x := exec (processJob job) sched st in
  outcome_of x = inr out ->
  exists d,
    out = [{| entity_id := rec_id st; done := d |}]
    /\ (split_count (rec_props (final_store x)) = split_count (rec_props st)
        <-> d = true)
    /\ (d = false ->
        split_count (rec_props (final_store x))
        = Some (nullish (split_count (rec_props st)) 0 + 1)%Z).
Proof.
  intros Ha Hsafe Hfault. cbv zeta. intros Hout.
  pose proof (exec_processJob_cases job sched st) as H. cbv zeta in H.
  rewrite !disturb_alone in H by done.
  destruct H as [(e & Hr & _ & _ & Ho) | [(target & Hr & _ & _ & _ & Ho)
    | [(target & Hr & _ & Hd & _ & Hf & Ho)
    | [(target & Hr & _ & Hd & Hno & _ & _ & Ho)
    | (target & tip & Hr & _ & Hd & Htip & _ & Hf & Ho)]]]];
    rewrite Ho in Hout; try discriminate Hout.
  - apply serve_fetch_inr in Hr as (-> & _). cbn [id] in Hout.
    injection Hout as <-. exists true. rewrite Hf.
    split; [done |]. split; [done | discriminate].
  - apply serve_fetch_inr in Hr as (-> & _). cbn [id properties] in *.
    set (w := serve_put _ _ _ _) in *.
    destruct (put_error (snd w)) as [e |] eqn:Hu.
    { exfalso. revert Hu Hout. subst w. unfold serve_put.
      destruct (fault (turn_at 2 sched)) as [e' |] eqn:Hf2.
      - cbn. intros [= <-]. by rewrite (Hfault e' eq_refl).
      - repeat case_decide; cbn; intros [= <-]; done. }
    cbn [truthy_opt] in Hout. injection Hout as <-. exists false.
    apply serve_put_applied in Hu as (_ & _ & _ & Hst). fold w in Hst.
    rewrite Hf, Hst.
    cbn [rec_props put_properties written_properties split_count properties].
    rewrite (js_add_safe _ Hsafe).
    split; [done |]. split; [split |].
    + intros E. exfalso.
      destruct (split_count (rec_props st)) as [n |]; cbn [nullish] in E.
      * injection E as E. lia.
      * discriminate E.
    + discriminate.
    + done.
Qed.

(** ** The loop of the end-to-end test *)

Section TestLoop.

Variable entityId : string.

Let job0 : KladosJob :=
  {| recurseDepth := 0; request := {| target_entity := entityId |} |}.

Lemma length_rounds_mono n : forall segs : list jsstring,
  length segs <= length (rounds n segs).
Proof.
  induction n as [| n IH]; intros segs; cbn [rounds]; [done |].
  etrans; [| apply IH].
  rewrite split_round_pieces. cbn [fst]. rewrite length_flat_map_pieces. lia.
Qed.

Lemma invokeAndWait_done st prev :
  rec_id st = entityId ->
  length (working_segments (rec_props st)) <= spread_limit ->
  allDone (working_segments (rec_props st)) = true ->
  invokeAndWait entityId prev st
  = Some (st, (bool_decide (split_count (rec_props st) = prev),
               split_count (rec_props st))).
Proof.
  intros Hid Hlen Hd. unfold invokeAndWait.
  pose proof (exec_served job0 st (eq_sym Hid) Hlen) as H. cbv zeta in H.
  rewrite Hd in H. destruct H as [Hf Ho]. fold job0. by rewrite Ho, Hf.
Qed.

Lemma invokeAndWait_split st :
  rec_id st = entityId ->
  length (working_segments (rec_props st)) <= spread_limit ->
  safe_integer (nullish (split_count (rec_props st)) 0%Z) ->
  allDone (working_segments (rec_props st)) = false ->
  let st1 := {| rec_id := rec_id st; rec_cid := S (rec_cid st);
                rec_props :=
                  written_properties job0
                    {| id := rec_id st; properties := rec_props st |} |} in
  invokeAndWait entityId (split_count (rec_props st)) st
  = Some (st1, (false, split_count (rec_props st1))).
Proof.
  intros Hid Hlen Hsafe Hd. cbv zeta. unfold invokeAndWait.
  pose proof (exec_served job0 st (eq_sym Hid) Hlen) as H. cbv zeta in H.
  rewrite Hd in H. destruct H as [Hf Ho]. fold job0. rewrite Ho, Hf.
  do 3 f_equal. apply bool_decide_eq_false.
  cbn [rec_props written_properties split_count properties].
  rewrite (js_add_safe _ Hsafe).
  destruct (split_count (rec_props st)) as [n |]; cbn [nullish];
    [intros [= E]; lia | discriminate].
Qed.

(** The loop on a record that needs [k] rounds, with more than [k]
    iterations left. *)
Lemma test_loop_rounds k : forall st remaining count,
  rec_id st = entityId ->
  (forall n, n < k -> allDone (rounds n (working_segments (rec_props st))) = false) ->
  allDone (rounds k (working_segments (rec_props st))) = true ->
  k < remaining ->
  length (rounds k (working_segments (rec_props st))) <= spread_limit ->
  (forall j, j <= k ->
     safe_integer (nullish (split_count (rec_props st)) 0 + Z.of_nat j)%Z) ->
  exists st',
    test_loop remaining entityId count (split_count (rec_props st)) st
    = Some (st', count + k + 1)
    /\ rec_id st' = rec_id st
    /\ rec_cid st' = rec_cid st + k
    /\ working_segments (rec_props st') = rounds k (working_segments (rec_props st))
    /\ text (rec_props st') = text (rec_props st)
    /\ extra (rec_props st') = extra (rec_props st)
    /\ (k = 0 -> st' = st)
    /\ (0 < k ->
        segments (rec_props st')
        = Some (rounds k (working_segments (rec_props st)))
        /\ split_count (rec_props st')
           = Some (nullish (split_count (rec_props st)) 0 + Z.of_nat k)%Z
        /\ last_split_depth (rec_props st') = Some 0%Z).
Proof.
  induction k as [| k IH];
    intros st remaining count Hid Hbefore Hat Hrem Hlen Hsafe;
    destruct remaining as [| remaining]; try lia; cbn [test_loop rounds] in *.
  - rewrite invokeAndWait_done by done.
    rewrite bool_decide_eq_true_2 by done.
    exists st. replace (count + 0 + 1) with (S count) by lia.
    repeat split; try done; lia.
  - pose proof (Hbefore 0 ltac:(lia)) as Hd. cbn [rounds] in Hd.
    assert (safe_integer (nullish (split_count (rec_props st)) 0%Z)) as Hsafe0.
    { specialize (Hsafe 0 ltac:(lia)). by rewrite Z.add_0_r in Hsafe. }
    assert (length (working_segments (rec_props st)) <= spread_limit) as Hlen0.
    { etrans; [apply (length_rounds_mono (S k)) | exact Hlen]. }
    rewrite invokeAndWait_split by done. cbv zeta.
    set (st1 := {| rec_id := rec_id st; rec_cid := S (rec_cid st);
                   rec_props := written_properties job0
                                  {| id := rec_id st; properties := rec_props st |} |}).
    assert (working_segments (rec_props st1)
            = fst (split_round (working_segments (rec_props st)))) as Hw
      by (exact (working_segments_written job0
                   {| id := rec_id st; properties := rec_props st |} Hd)).
    assert (split_count (rec_props st1)
            = Some (nullish (split_count (rec_props st)) 0 + 1)%Z) as Hc1.
    { subst st1. cbn [rec_props written_properties split_count properties].
      by rewrite (js_add_safe _ Hsafe0). }
    destruct (IH st1 remaining (S count)) as (st' & Hloop & Hid' & Hcid & Hwork
                                              & Htext & Hextra & Hzero & Hpos).
    + done.
    + intros n Hn. rewrite Hw. apply (Hbefore (S n)). lia.
    + by rewrite Hw.
    + lia.
    + by rewrite Hw.
    + intros j Hj. rewrite Hc1. cbn [nullish].
      specialize (Hsafe (S j) ltac:(lia)).
      replace (nullish (split_count (rec_props st)) 0 + 1 + Z.of_nat j)%Z
        with (nullish (split_count (rec_props st)) 0 + Z.of_nat (S j))%Z by lia.
      exact Hsafe.
    + exists st'. rewrite Hloop. rewrite Hw in Hwork, Hpos.
      split; [f_equal; f_equal; lia |].
      split; [done |]. split; [rewrite Hcid; cbn; lia |].
      split; [done |]. split; [done |]. split; [done |].
      split; [lia |]. intros _.
      destruct k as [| k].
      * rewrite (Hzero eq_refl). cbn [rounds].
        split; [done |]. split; [by rewrite Hc1 | done].
      * destruct (Hpos ltac:(lia)) as (Hs & Hc & Hl).
        split; [done |]. split; [| done].
        rewrite Hc, Hc1. cbn [nullish]. f_equal. lia.
Qed.

End TestLoop.

(** X8: the loop of the end-to-end test, on a fresh entity (no
    split_count yet) whose longest working segment needs k rounds, with k
    below the limit of 20 and the segments of the last round no more than
    the engine takes arguments in one call: it stops after exactly k + 1
    iterations, the last of which changes nothing; the entity then holds
    the segments of k rounds, all of at most 10 characters and joining to
    the original text, split_count is k and last_split_depth is 0 (nothing
    at all is written when k is 0), and text and the other properties are
    as before. *)
Theorem test_loop_takes_one_iteration_more_than_rounds
    (entityId : string) (st : Store) :
  rec_id st = entityId ->
  split_count (rec_props st) = None ->
  let w := working_segments (rec_props st) in
  let k := rounds_bound (maxLength w) in
  k < MAX_ITERATIONS ->
  length (rounds k w) <= spread_limit ->
  exists st',
    run_test entityId st = Some (st', k + 1)
    /\ working_segments (rec_props st') = rounds k w
    /\ allDone (working_segments (rec_props st')) = true
    /\ concat (working_segments (rec_props st')) = concat w
    /\ rec_cid st' = rec_cid st + k
    /\ text (rec_props st') = text (rec_props st)
    /\ extra (rec_props st') = extra (rec_props st)
    /\ (k = 0 -> st' = st)
    /\ (0 < k ->
        segments (rec_props st') = Some (rounds k w)
        /\ split_count (rec_props st') = Some (Z.of_nat k)
        /\ last_split_depth (rec_props st') = Some 0%Z).
Proof.
  intros Hid Hfresh w k Hk Hlen. unfold run_test. rewrite <- Hfresh.
  destruct (test_loop_rounds entityId k st MAX_ITERATIONS 0 Hid)
    as (st' & Hloop & _ & Hcid & Hwork & Htext & Hextra & Hzero & Hpos).
  - intros n Hn. by apply rounds_not_done_before.
  - apply rounds_done_at_bound.
  - exact Hk.
  - exact Hlen.
  - intros j Hj. rewrite Hfresh. cbn [nullish]. rewrite Z.add_0_l.
    apply safe_integer_of_nat. unfold MAX_ITERATIONS in Hk. lia.
  - exists st'. split; [exact Hloop |]. split; [exact Hwork |].
    split; [rewrite Hwork; apply rounds_done_at_bound |].
    split; [rewrite Hwork; apply concat_rounds |].
    split; [exact Hcid |]. split; [exact Htext |]. split; [exact Hextra |].
    split; [exact Hzero |]. intros Hk0.
    destruct (Hpos Hk0) as (Hs & Hc & Hl). rewrite Hfresh in Hc.
    cbn [nullish] in Hc. rewrite Z.add_0_l in Hc. done.
Qed.

(** X9: the test recognises the end by comparing split_count with the
    previous one, starting from undefined: on an entity that already
    carries a split_count and has nothing left to split (and no more
    segments than the engine takes arguments in one call), the first
    iteration is therefore not taken as the last, and the loop stops after
    two iterations with the entity untouched. *)
Theorem test_loop_needs_two_iterations_on_a_finished_entity
    (entityId : string) (st : Store) (n : Z) :
  rec_id st = entityId ->
  split_count (rec_props st) = Some n ->
  allDone (working_segments (rec_props st)) = true ->
  length (working_segments (rec_props st)) <= spread_limit ->
  run_test entityId st = Some (st, 2).
Proof.
  intros Hid Hcount Hd Hlen. unfold run_test, MAX_ITERATIONS. cbn [test_loop].
  rewrite invokeAndWait_done by done. rewrite Hcount.
  rewrite bool_decide_eq_false_2 by discriminate.
  rewrite invokeAndWait_done by done. rewrite Hcount.
  rewrite bool_decide_eq_true_2 by done. done.
Qed.

End WithSpreadLimit.
(** * The theorems at the scenarios of the tests *)

(** Every run below is on an JavaScript engine that takes [example_limit] arguments
    in one call. *)

Lemma example_limit_covers (segs : list jsstring) :
  (length segs <=? 1000) = true -> length segs <= example_limit.
Proof.
  intros H. apply Nat.leb_le in H. etrans; [exact H |].
  apply Nat.leb_le. vm_compute. reflexivity.
Defined.

Lemma long_record_fits :
  length (working_segments (rec_props long_record)) <= example_limit.
Proof. apply example_limit_covers. reflexivity. Defined.


Lemma finished_record_fits :
  length (working_segments (rec_props finished_record)) <= example_limit.
Proof. apply example_limit_covers. reflexivity. Defined.



(** The write is answered with the empty string as its error: done=false
    is returned and the record is the one that was read, without
    segments. *)
Lemma done_false_may_persist_nothing_witness :
  outcome_of (exec (processJob example_limit direct_job) write_answered_empty
                long_record)
  = inr [{| entity_id := "entity"; done := false |}]
  /\ final_store (exec (processJob example_limit direct_job) write_answered_empty
                    long_record)
     = long_record
  /\ segments (rec_props long_record) = None.
Proof.
  destruct (done_false_may_persist_nothing example_limit) as (_ & _ & _ & H).
  destruct (H direct_job write_answered_empty long_record (JStr [])
              eq_refl eq_refl eq_refl eq_refl eq_refl long_record_fits eq_refl)
    as (Ho & Hf & _).
  split; [exact Ho |]. split; [exact Hf | reflexivity].
Defined.


(** The write is answered with the empty string as its error: the
    invocation does not raise, and the record is the one that was read. *)
Lemma failed_write_with_falsy_error_passes_for_success_witness :
  outcome_of (exec (processJob example_limit direct_job) write_answered_empty
                long_record)
  = inr [{| entity_id := "entity"; done := false |}]
  /\ final_store (exec (processJob example_limit direct_job) write_answered_empty
                    long_record)
     = long_record
  /\ exists body,
      snd <$> store_trace (trace_of (exec (processJob example_limit direct_job)
                                       write_answered_empty long_record))
      = [OFetch "entity"
           (inr {| id := "entity"; properties := rec_props long_record |});
         OTip "entity" {| tip_data := Some {| cid := 0 |}; tip_error := None |};
         OPut "entity" body {| put_error := Some (JStr []) |}].
Proof.
  destruct (failed_write_with_falsy_error_passes_for_success example_limit
              direct_job) as (_ & _ & H).
  exact (H write_answered_empty long_record (JStr [])
           eq_refl eq_refl eq_refl eq_refl eq_refl long_record_fits eq_refl).
Defined.

(** C8 as stated fails: with the record read at revision 0, a write by
    someone else before the tip fetch brings it to revision 1; the tip
    fetch returns that token, the write is accepted at revision 1, and the
    other's properties are replaced by the split of what was read at
    revision 0. *)
Lemma write_after_foreign_change_accepted :
  let x := exec (processJob example_limit direct_job) write_before_tip long_record in
  read_revision (trace_of x) = Some 0
  /\ write_revision (trace_of x) = Some 1
  /\ outcome_of x = inr [{| entity_id := "entity"; done := false |}]
  /\ segments (rec_props (final_store x))
     = Some [repeat_unit unit_A 40; repeat_unit unit_A 40]
  /\ ~ (forall (job : KladosJob) (sched : list turn) (st : Store) (w : nat),
          write_revision (trace_of (exec (processJob example_limit job) sched st))
          = Some w ->
          read_revision (trace_of (exec (processJob example_limit job) sched st))
          = Some w).
Proof.
  cbv zeta. repeat split; try reflexivity.
  intros H.
  specialize (H direct_job write_before_tip long_record 1 eq_refl).
  discriminate H.
Qed.

Lemma accepted_write_unmodified_since_tip_witness :
  token_revision (trace_of (exec (processJob example_limit direct_job)
                              write_before_tip long_record))
  = Some 1.
Proof.
  exact (proj1 (accepted_write_unmodified_since_tip example_limit direct_job
                  write_before_tip long_record 1 eq_refl)).
Defined.

Lemma write_carries_other_properties_over_witness :
  prop_lookup (written_properties direct_job
                 {| id := "entity"; properties := rec_props long_record |}) "label"
  = Some (JStr (str "Recurse Test Entity"))
  /\ prop_lookup (written_properties direct_job
                    {| id := "entity"; properties := rec_props long_record |}) "text"
     = Some (JStr (repeat_unit unit_A 80)).
Proof.
  assert (OFetch (target_entity (request direct_job))
            (inr {| id := "entity"; properties := rec_props long_record |})
            ∈ snd <$> trace_of (exec (processJob example_limit direct_job) []
                                  long_record))
    as Hfetch.
  { apply list_elem_of_further, list_elem_of_here. }
  assert (OPut "entity"
            {| expect_tip := 0;
               put_properties :=
                 written_properties direct_job
                   {| id := "entity"; properties := rec_props long_record |} |}
            {| put_error := None |}
            ∈ snd <$> trace_of (exec (processJob example_limit direct_job) []
                                  long_record))
    as Hput.
  { do 4 apply list_elem_of_further. apply list_elem_of_here. }
  destruct (write_carries_other_properties_over example_limit direct_job _ _ _ _ _ _
              (exec_behaves (processJob example_limit direct_job) [] long_record)
              Hfetch Hput)
    as (_ & _ & Hkeys).
  split.
  - refine (eq_trans (Hkeys "label" _ _ _) _); [done | done | done | reflexivity].
  - refine (eq_trans (Hkeys "text" _ _ _) _); [done | done | done | reflexivity].
Defined.

Lemma splitting_preserves_the_text_witness :
  exists written,
    segments (written_properties direct_job
                {| id := "entity"; properties := rec_props long_record |})
    = Some written
    /\ concat written = repeat_unit unit_A 80.
Proof.
  destruct (splitting_preserves_the_text example_limit) as [_ H].
  assert (OFetch (target_entity (request direct_job))
            (inr {| id := "entity"; properties := rec_props long_record |})
            ∈ snd <$> trace_of (exec (processJob example_limit direct_job) []
                                  long_record))
    as Hfetch.
  { apply list_elem_of_further, list_elem_of_here. }
  assert (OPut "entity"
            {| expect_tip := 0;
               put_properties :=
                 written_properties direct_job
                   {| id := "entity"; properties := rec_props long_record |} |}
            {| put_error := None |}
            ∈ snd <$> trace_of (exec (processJob example_limit direct_job) []
                                  long_record))
    as Hput.
  { do 4 apply list_elem_of_further. apply list_elem_of_here. }
  exact (H direct_job _ _ _ _ _ _
           (exec_behaves (processJob example_limit direct_job) [] long_record)
           Hfetch Hput).
Defined.

Lemma fetch_rejection_is_passed_on_witness :
  outcome_of (exec (processJob example_limit direct_job)
                [{| interference := []; fault := Some not_found |}] small_record)
  = inl (Rejected not_found).
Proof.
  refine (proj1 (fetch_rejection_is_passed_on example_limit direct_job _ _
                   "entity" not_found
                   (exec_behaves (processJob example_limit direct_job)
                      [{| interference := []; fault := Some not_found |}]
                      small_record) _)).
  apply list_elem_of_further, list_elem_of_here.
Defined.

Lemma calls_follow_fetch_tip_write_witness :
  exists r rest,
    store_calls (snd <$> trace_of (exec (processJob example_limit direct_job)
                                     write_before_put long_record))
    = OFetch "entity" r :: rest
    /\ length rest <= 2.
Proof.
  destruct (calls_follow_fetch_tip_write example_limit direct_job _ _
              (exec_behaves (processJob example_limit direct_job) write_before_put
                 long_record))
    as (r & rest & Hc & Hl & _).
  exists r, rest. split; [exact Hc | exact Hl].
Defined.

Lemma split_count_changes_iff_not_done_witness :
  exists d,
    [{| entity_id := "entity"; done := false |}]
    = [{| entity_id := rec_id long_record; done := d |}]
    /\ (d = false ->
        split_count (rec_props (final_store (exec (processJob example_limit direct_job)
                                               [] long_record)))
        = Some (nullish (split_count (rec_props long_record)) 0 + 1)%Z).
Proof.
  assert (safe_integer (nullish (split_count (rec_props long_record)) 0%Z)) as Hsafe.
  { vm_compute. split; discriminate. }
  destruct (split_count_changes_iff_not_done example_limit direct_job [] long_record
              [{| entity_id := "entity"; done := false |}]
              (List.Forall_nil _) Hsafe
              ltac:(intros e He; discriminate He) eq_refl)
    as (d & Hd & _ & Hcount).
  exists d. split; [exact Hd | exact Hcount].
Defined.

Lemma test_loop_takes_one_iteration_more_than_rounds_witness :
  exists st',
    run_test example_limit "entity" long_record = Some (st', 3 + 1)
    /\ split_count (rec_props st') = Some 3%Z
    /\ last_split_depth (rec_props st') = Some 0%Z.
Proof.
  destruct (test_loop_takes_one_iteration_more_than_rounds example_limit "entity"
              long_record eq_refl eq_refl)
    as (st' & Hrun & _ & _ & _ & _ & _ & _ & _ & Hpos).
  { vm_compute. lia. }
  { apply example_limit_covers. vm_compute. reflexivity. }
  exists st'. split; [exact Hrun |].
  destruct Hpos as (_ & Hc & Hl); [vm_compute; lia |].
  split; [exact Hc | exact Hl].
Defined.

Lemma test_loop_needs_two_iterations_on_a_finished_entity_witness :
  run_test example_limit "entity" finished_record = Some (finished_record, 2).
Proof.
  exact (test_loop_needs_two_iterations_on_a_finished_entity example_limit "entity"
           finished_record 3%Z eq_refl eq_refl eq_refl finished_record_fits).
Defined.

(** ** The scenarios of the tests, run *)

Section Scenarios.

Let lengths (st : Store) : list nat := length <$> working_segments (rec_props st).

(** 80 characters: three rounds of splitting and a fourth invocation that
    finds nothing to do; eight segments of ten, split_count 3, depth 0. *)
Example eighty_characters :
  let '(st, n) := drive example_limit 20 direct_job long_record in
  n = 4
  /\ lengths st = [10; 10; 10; 10; 10; 10; 10; 10]
  /\ split_count (rec_props st) = Some 3%Z
  /\ last_split_depth (rec_props st) = Some 0%Z
  /\ prop_lookup (rec_props st) "label" = Some (JStr (str "Recurse Test Entity")).
Proof. vm_compute. repeat split. Qed.

(** "SMALL": one invocation, nothing written. *)
Example already_small :
  let '(st, n) := drive example_limit 20 direct_job small_record in
  n = 1 /\ st = small_record.
Proof. vm_compute. repeat split. Qed.

(** 320 characters: five rounds and a sixth invocation; 32 segments of ten. *)
Example three_hundred_twenty_characters :
  let '(st, n) :=
    drive example_limit 20 direct_job (fresh_record (repeat_unit 66%N 320)) in
  n = 6 /\ lengths st = replicate 32 10.
Proof. vm_compute. repeat split. Qed.

(** A write answered with the empty string as its error: the invocation
    returns done=false, and the record is as it was. *)
Example write_answered_with_empty_error :
  let x := exec (processJob example_limit direct_job) write_answered_empty
             long_record in
  outcome_of x = inr [{| entity_id := "entity"; done := false |}]
  /\ final_store x = long_record.
Proof. vm_compute. repeat split. Qed.

(** More segments than the engine takes arguments: the invocation throws
    at the 'Current state' log, whatever the segments are. *)
Example more_segments_than_arguments :
  outcome_of
    (exec (processJob 3 direct_job) []
       {| rec_id := "entity"; rec_cid := 0;
          rec_props :=
            {| text := None;
               segments := Some [str "a"; str "b"; str "c"; str "d"];
               split_count := None; last_split_depth := None; extra := ∅ |} |})
  = inl RangeError.
Proof. reflexivity. Qed.

End Scenarios.


(** ** The verification endpoint *)

(** X10: the verification endpoint answers 200 exactly when the
    verification token is present and not empty and a klados id is at hand
    (ARKE_VERIFY_AGENT_ID when that is present and not empty, AGENT_ID
    otherwise, itself not empty); it then returns that token and that id,
    neither empty.  In every other case it answers 500 with the error
    "Verification not configured".  The answer does not depend on the
    agent key. *)
Theorem verification_needs_token_and_id (env : Env) :
  let r := arke_verification env in
  let configured :=
    (exists token, VERIFICATION_TOKEN env = Some token /\ token <> [])
    /\ ((exists v, ARKE_VERIFY_AGENT_ID env = Some v /\ v <> [])
        \/ AGENT_ID env <> []) in
  (status r = 200 <-> configured)
  /\ (status r = 200 ->
      exists token kid,
        body r = JObj [("verification_token", JStr token); ("klados_id", JStr kid)]
        /\ VERIFICATION_TOKEN env = Some token /\ token <> [] /\ kid <> []
        /\ (forall v, ARKE_VERIFY_AGENT_ID env = Some v -> v <> [] -> kid = v)
        /\ (ARKE_VERIFY_AGENT_ID env = None \/ ARKE_VERIFY_AGENT_ID env = Some [] ->
            kid = AGENT_ID env))
  /\ (status r <> 200 ->
      status r = 500
      /\ body r = JObj [("error", JStr (str "Verification not configured"))])
  /\ forall key, arke_verification (with_agent_key env key) = r.
Proof.
  cbv zeta. unfold arke_verification, or_else, not_string.
  destruct env as [aid ver key token vid]. cbn [VERIFICATION_TOKEN
    ARKE_VERIFY_AGENT_ID AGENT_ID with_agent_key].
  destruct token as [[| c t] |]; destruct vid as [[| c' t'] |];
    destruct aid as [| c'' t'']; cbn.
  all: repeat split; try done; try discriminate.
  all: try (intros [(tk & [= <-] & Hne) _]; done).
  all: try (intros [_ [(v & [= <-] & Hne) | Hne]]; done).
  all: try (intros [(tk & E & _) _]; discriminate E).
  all: try (by eexists).
  all: try (intros _; eexists _, _; repeat split; try done;
            try (intros v [= <-]; done); try (intros [E | E]; done)).
  all: try (right; done).
  all: try (left; by eexists).
Qed.

Lemma verification_needs_token_and_id_witness :
  body (arke_verification registered_env)
  = JObj [("verification_token", JStr (str "vt_1"));
          ("klados_id", JStr (str "klados_1"))].
Proof.
  destruct (verification_needs_token_and_id registered_env) as (_ & H & _).
  destruct (H eq_refl) as (token & kid & Hbody & Htoken & _ & _ & _ & Hkid).
  injection Htoken as <-. rewrite Hbody, (Hkid (or_intror eq_refl)). reflexivity.
Defined.

(** ** [substituteEnvVars] *)

Module RegisterFacts.

Import Register.

Section Facts.

Context {number : Type}.
Variable env : jsstring -> option jsstring.
Variable inherited : jsstring -> option jsstring.

Implicit Types (v : value number) (items : list (value number))
  (fields result : list (jsstring * value number)).

(** Induction on a value, with the items of an array and the values of an
    object's properties as the smaller values. *)
Lemma value_ind (P : value number -> Prop) :
  P VNull ->
  (forall b, P (VBool b)) ->
  (forall x, P (VNum x)) ->
  (forall s, P (VStr s)) ->
  (forall items, Forall P items -> P (VArr items)) ->
  (forall fields, Forall (fun kv => P kv.2) fields -> P (VObj fields)) ->
  (forall name, P (VInherited name)) ->
  forall v, P v.
Proof.
  intros Hnull Hbool Hnum Hstr Harr Hobj Hinh.
  fix IH 1. intros [| b | x | s | items | fields | name].
  - exact Hnull.
  - apply Hbool.
  - apply Hnum.
  - apply Hstr.
  - apply Harr. induction items as [| x items IHitems]; constructor.
    + apply IH.
    + exact IHitems.
  - apply Hobj. induction fields as [| [k x] fields IHfields]; constructor.
    + apply IH.
    + exact IHfields.
  - apply Hinh.
Qed.

Lemma substitute_arr items :
  substituteEnvVars env inherited (VArr items)
  = match map_items env inherited items with
    | inl e => inl e
    | inr ys => inr (VArr ys)
    end.
Proof. reflexivity. Qed.

Lemma substitute_obj fields :
  substituteEnvVars env inherited (VObj fields)
  = match entries env inherited fields [] with
    | inl e => inl e
    | inr result => inr (VObj result)
    end.
Proof. reflexivity. Qed.

Lemma map_items_cons x items :
  map_items env inherited (x :: items)
  = match substituteEnvVars env inherited x with
    | inl e => inl e
    | inr y =>
        match map_items env inherited items with
        | inl e => inl e
        | inr ys => inr (y :: ys)
        end
    end.
Proof. reflexivity. Qed.

Lemma entries_cons key x fields result :
  entries env inherited ((key, x) :: fields) result
  = match substituteEnvVars env inherited x with
    | inl e => inl e
    | inr x' =>
        entries env inherited fields (own_set result (new_key env inherited key) x')
    end.
Proof. reflexivity. Qed.

Lemma first_unset_app (l1 l2 : list jsstring) :
  first_unset env inherited (l1 ++ l2)
  = match first_unset env inherited l1 with
    | Some name => Some name
    | None => first_unset env inherited l2
    end.
Proof.
  unfold first_unset. induction l1 as [| n l1 IH]; [done |].
  cbn [app List.find]. destruct (negb (is_set env inherited n)); [done | exact IH].
Qed.

Lemma substitute_agrees v :
  agrees env inherited (substituteEnvVars env inherited v) (placeholders v).
Proof.
  induction v as [| b | x | s | items IH | fields IH | name] using value_ind; try done.
  - cbn [substituteEnvVars placeholders].
    destruct (startsWith_dollar s); [| done].
    unfold agrees, first_unset, is_set. cbn [List.find].
    destruct (env (slice_from s 1)) as [value |].
    + destruct (truthy_string value); done.
    + destruct (inherited (slice_from s 1)) as [k |]; [| done].
      rewrite bool_decide_eq_true_2; [done | by eexists].
  - rewrite substitute_arr. cbn [placeholders].
    assert (agrees env inherited (map_items env inherited items)
              (flat_map placeholders items)) as H.
    { induction IH as [| x items Hx _ IHitems]; [done |].
      rewrite map_items_cons. cbn [flat_map]. unfold agrees in *.
      rewrite first_unset_app.
      destruct (substituteEnvVars env inherited x) as [[name] | y]; rewrite Hx; [done |].
      destruct (map_items env inherited items) as [[name] | ys]; done. }
    destruct (map_items env inherited items) as [[name] | ys]; done.
  - rewrite substitute_obj. cbn [placeholders].
    assert (forall result,
               agrees env inherited (entries env inherited fields result)
                 (flat_map (fun kv => placeholders kv.2) fields)) as H.
    { induction IH as [| [key x] fields Hx _ IHfields]; intros result; [done |].
      rewrite entries_cons. cbn [flat_map snd]. unfold agrees in *.
      rewrite first_unset_app. cbn [snd] in Hx.
      destruct (substituteEnvVars env inherited x) as [[name] | y]; rewrite Hx; [done |].
      apply IHfields. }
    specialize (H []).
    destruct (entries env inherited fields []) as [[name] | result]; done.
Qed.

Lemma own_set_values (P : value number -> Prop) result key v :
  Forall (fun kv => P kv.2) result -> P v ->
  Forall (fun kv => P kv.2) (own_set result key v).
Proof.
  intros Hr Hv. unfold own_set. repeat case_decide; [done | |].
  - apply Forall_fmap. eapply Forall_impl; [exact Hr |].
    intros kv Hkv. cbn. case_decide; done.
  - apply Forall_app. split; [done | by repeat constructor].
Qed.

Lemma flat_map_nil {A B} (f : A -> list B) (l : list A) :
  Forall (fun x => f x = []) l -> flat_map f l = [].
Proof. induction 1 as [| x l Hx _ IH]; cbn [flat_map]; [done | by rewrite Hx, IH]. Qed.

(** X11: when no variable of the environment has a value that itself
    starts with [$], a successful substitution leaves no [$NAME] string
    among the values of its result. *)
Theorem substitute_leaves_no_placeholder v :
  (forall name value, env name = Some value -> startsWith_dollar value = false) ->
  forall v', substituteEnvVars env inherited v = inr v' -> placeholders v' = [].
Proof.
  intros Henv.
  induction v as [| b | x | s | items IH | fields IH | name] using value_ind;
    intros v' Hv; try (injection Hv as <-; done).
  - cbn [substituteEnvVars] in Hv.
    destruct (startsWith_dollar s) eqn:Hs.
    + destruct (env (slice_from s 1)) as [value |] eqn:He.
      * destruct (truthy_string value); [| discriminate Hv].
        injection Hv as <-. cbn [placeholders]. by rewrite (Henv _ _ He).
      * destruct (inherited (slice_from s 1)); [| discriminate Hv].
        by injection Hv as <-.
    + injection Hv as <-. cbn [placeholders]. by rewrite Hs.
  - rewrite substitute_arr in Hv.
    destruct (map_items env inherited items) as [e | ys] eqn:Hm; [discriminate Hv |].
    injection Hv as <-. cbn [placeholders]. apply flat_map_nil.
    revert ys Hm. induction IH as [| x items Hx _ IHitems]; intros ys Hm.
    + injection Hm as <-. constructor.
    + rewrite map_items_cons in Hm.
      destruct (substituteEnvVars env inherited x) as [e | y]; [discriminate Hm |].
      destruct (map_items env inherited items) as [e | ys']; [discriminate Hm |].
      injection Hm as <-. constructor; [by apply Hx | by apply IHitems].
  - rewrite substitute_obj in Hv.
    destruct (entries env inherited fields []) as [e | result] eqn:Hm;
      [discriminate Hv |].
    injection Hv as <-. cbn [placeholders]. apply flat_map_nil.
    assert (forall acc result,
               Forall (fun kv => placeholders kv.2 = []) acc ->
               entries env inherited fields acc = inr result ->
               Forall (fun kv => placeholders kv.2 = []) result) as H.
    { clear Hm result.
      induction IH as [| [key x] fields Hx _ IHfields]; intros acc result Hacc Hm.
      - by injection Hm as <-.
      - rewrite entries_cons in Hm. cbn [snd] in Hx.
        destruct (substituteEnvVars env inherited x) as [e | x'] eqn:Hx';
          [discriminate Hm |].
        eapply IHfields; [| exact Hm].
        apply (own_set_values (fun v => placeholders v = [])); [done |].
        by apply Hx. }
    by apply (H [] result).
Qed.

(** X12: JSON in which no string value and no key starts with [$] (its
    objects having distinct keys, none of them [__proto__]) comes back
    unchanged, whatever the environment. *)
Theorem substitute_keeps_json_without_dollar v :
  plain v = true -> substituteEnvVars env inherited v = inr v.
Proof.
  induction v as [| b | x | s | items IH | fields IH | name] using value_ind;
    intros Hp; try done.
  - cbn [plain substituteEnvVars] in *.
    by destruct (startsWith_dollar s).
  - rewrite substitute_arr. cbn [plain] in Hp.
    assert (map_items env inherited items = inr items) as ->; [| done].
    induction IH as [| x items Hx _ IHitems]; [done |].
    cbn [forallb] in Hp. apply andb_true_iff in Hp as [Hpx Hpi].
    by rewrite map_items_cons, Hx, IHitems.
  - rewrite substitute_obj. cbn [plain] in Hp.
    apply andb_true_iff in Hp as [Hall Hnd].
    apply bool_decide_eq_true in Hnd.
    assert (forall acc,
               NoDup ((acc ++ fields).*1) ->
               entries env inherited fields acc = inr (acc ++ fields)) as H.
    { clear Hnd.
      induction IH as [| [key x] fields Hx _ IHfields]; intros acc Hnd.
      - by rewrite app_nil_r.
      - cbn [forallb fst snd] in Hall, Hx.
        apply andb_true_iff in Hall as [Hkx Hrest].
        apply andb_true_iff in Hkx as [Hk Hpx].
        apply andb_true_iff in Hk as [Hdollar Hproto].
        apply negb_true_iff in Hdollar, Hproto.
        apply bool_decide_eq_false in Hproto.
        rewrite entries_cons, (Hx Hpx).
        assert (own_set acc (new_key env inherited key) x = acc ++ [(key, x)]) as ->.
        { unfold new_key. rewrite Hdollar. unfold own_set.
          case_decide; [done |]. case_decide as Hin; [| done].
          exfalso. rewrite fmap_app in Hnd.
          apply NoDup_app in Hnd as (_ & Hdisj & _).
          apply (Hdisj key Hin). cbn. apply list_elem_of_here. }
        rewrite IHfields by (try done; by rewrite <- app_assoc).
        by rewrite <- app_assoc. }
    by rewrite (H [] Hnd).
Qed.

Lemma first_unset_none (names : list jsstring) :
  first_unset env inherited names = None
  <-> Forall (fun name => is_set env inherited name = true) names.
Proof.
  unfold first_unset. induction names as [| n names IH]; cbn [List.find].
  - split; [constructor | done].
  - destruct (is_set env inherited n) eqn:Hn; cbn [negb].
    + rewrite IH. split; [by constructor | by inversion 1].
    + split; [done |]. inversion 1; congruence.
Qed.

Lemma first_unset_some (names : list jsstring) (name : jsstring) :
  first_unset env inherited names = Some name <->
  exists before after,
    names = before ++ name :: after
    /\ Forall (fun n => is_set env inherited n = true) before
    /\ is_set env inherited name = false.
Proof.
  unfold first_unset. induction names as [| n names IH]; cbn [List.find].
  - split; [done |]. intros (before & after & E & _). by destruct before.
  - destruct (is_set env inherited n) eqn:Hn; cbn [negb].
    + rewrite IH. split.
      * intros (before & after & -> & Hb & Hname).
        exists (n :: before), after. split; [done |]. split; [by constructor | done].
      * intros (before & after & E & Hb & Hname).
        destruct before as [| b before]; cbn [app] in E; injection E as -> ->.
        -- congruence.
        -- exists before, after. split; [done |]. split; [by inversion Hb | done].
    + split.
      * intros [= <-]. exists [], names. split; [done |]. split; [constructor | done].
      * intros (before & after & E & Hb & Hname).
        destruct before as [| b before]; cbn [app] in E; injection E as -> ->.
        -- done.
        -- inversion Hb; congruence.
Qed.

End Facts.

(** X13: [substituteEnvVars] fails exactly when some [$NAME] string among
    the values names nothing truthy in [process.env]: a variable set to
    the empty string, or a name that is neither a variable nor a property
    the object inherits; the error then names the first such name in the
    order of the traversal, and every one met before it names something
    truthy.  A name that is no variable but is inherited (as [toString]
    is) does not make it fail: what comes back in its place is the
    inherited value, no string.  Keys never make it fail. *)
Theorem substitute_fails_on_first_unset_variable
    {number : Type} (env inherited : jsstring -> option jsstring) (v : value number) :
  (forall name,
      is_set env inherited name = true <->
      (exists value, env name = Some value /\ value <> [])
      \/ (env name = None /\ is_Some (inherited name)))
  /\ ((exists v', substituteEnvVars env inherited v = inr v')
      <-> Forall (fun name => is_set env inherited name = true) (placeholders v))
  /\ (forall name,
      substituteEnvVars env inherited v = inl (NotSet name) <->
      exists before after,
        placeholders v = before ++ name :: after
        /\ Forall (fun n => is_set env inherited n = true) before
        /\ is_set env inherited name = false)
  /\ (forall s : jsstring,
      startsWith_dollar s = true ->
      env (slice_from s 1) = None ->
      is_Some (inherited (slice_from s 1)) ->
      substituteEnvVars env inherited (VStr s)
      = inr (VInherited (number := number) (slice_from s 1))).
Proof.
  pose proof (substitute_agrees env inherited v) as H. unfold agrees in H.
  split; [| split; [| split]].
  - intros name. unfold is_set. destruct (env name) as [value |].
    + split.
      * intros Ht. left. exists value. split; [done |]. by destruct value.
      * intros [(value' & [= <-] & Hne) | [E _]]; [| discriminate E].
        by destruct value.
    + rewrite bool_decide_eq_true. split.
      * intros Hi. by right.
      * intros [(value & E & _) | [_ Hi]]; [discriminate E | done].
  - rewrite <- first_unset_none.
    destruct (substituteEnvVars env inherited v) as [[name] | v'].
    + rewrite H. split; [intros [v' E]; discriminate E | discriminate].
    + split; [done | intros _; by eexists].
  - intros name. rewrite <- first_unset_some.
    destruct (substituteEnvVars env inherited v) as [[name'] | v'].
    + rewrite H. split; intros [= ->]; done.
    + rewrite H. split; discriminate.
  - intros s Hs He [k Hk]. cbn [substituteEnvVars]. by rewrite Hs, He, Hk.
Qed.

Lemma substitute_fails_on_first_unset_variable_witness :
  substituteEnvVars env_empty only_toString (workflow (str "$SPLITTER_KLADOS"))
  = inl (NotSet (str "SPLITTER_KLADOS"))
  /\ substituteEnvVars env_empty only_toString (VStr (number := Z) (str "$toString"))
     = inr (VInherited (str "toString")).
Proof.
  destruct (substitute_fails_on_first_unset_variable env_empty only_toString
              (workflow (str "$SPLITTER_KLADOS"))) as (_ & _ & Hfail & Hinh).
  split.
  - apply Hfail.
    exists [], []. split; [reflexivity |]. split; [constructor | reflexivity].
  - exact (Hinh (str "$toString") eq_refl eq_refl (mk_is_Some _ _ eq_refl)).
Defined.

Lemma substitute_leaves_no_placeholder_witness :
  placeholders (workflow (str "klados_1")) = [].
Proof.
  refine (substitute_leaves_no_placeholder (env_with_klados (str "klados_1"))
            only_toString (workflow (str "$SPLITTER_KLADOS")) _ _ eq_refl).
  intros name value. unfold env_with_klados. case_decide; [| done].
  intros [= <-]. reflexivity.
Defined.

Lemma substitute_keeps_json_without_dollar_witness :
  substituteEnvVars env_empty only_toString (workflow (str "klados_1"))
  = inr (workflow (str "klados_1")).
Proof.
  apply substitute_keeps_json_without_dollar. reflexivity.
Defined.

End RegisterFacts.

(** ** The arguments of the registration script *)

Module MainFacts.

Import Main.

Lemma indexOf_first (pre rest : list jsstring) (x : jsstring) :
  x ∉ pre -> indexOf (pre ++ x :: rest) x = Some (length pre).
Proof.
  induction pre as [| a pre IH]; intros Hnot; cbn [app indexOf length].
  - by rewrite decide_True.
  - apply not_elem_of_cons in Hnot as [Hne Hnot].
    rewrite decide_False by done. by rewrite IH.
Qed.

Lemma indexOf_absent (argv : list jsstring) (x : jsstring) :
  x ∉ argv -> indexOf argv x = None.
Proof.
  induction argv as [| a argv IH]; intros Hnot; cbn [indexOf]; [done |].
  apply not_elem_of_cons in Hnot as [Hne Hnot].
  rewrite decide_False by done. by rewrite IH.
Qed.

(** X14: without a user key the script exits with status 1.  With one,
    it registers a workflow exactly when the first [--workflow] among the
    arguments is followed by a non-empty argument, whatever that argument
    is; its name is that argument with one trailing ".json" removed, so
    NAME and NAME.json mean the same.  A [--workflow] that is followed by
    an empty argument or comes last, or no [--workflow] at all, makes it
    register the klados instead. *)
Theorem workflow_name_follows_first_flag
    (key : jsstring) (pre post : list jsstring) (name base : jsstring) :
  key <> [] ->
  str "--workflow" ∉ pre ->
  let named := pre ++ str "--workflow" :: name :: post in
  let unnamed := pre ++ str "--workflow" :: [] :: post in
  let last := pre ++ [str "--workflow"] in
  let net argv :=
    if includes argv (str "--production") || includes argv (str "--prod")
    then MainNet else TestNet in
  (name <> [] ->
   main (Some key) named
   = RegisterWorkflow (strip_json name) (net named) (includes named (str "--dry-run")))
  /\ main (Some key) unnamed
     = RegisterKlados (net unnamed) (includes unnamed (str "--dry-run"))
  /\ main (Some key) last = RegisterKlados (net last) (includes last (str "--dry-run"))
  /\ main (Some key) pre = RegisterKlados (net pre) (includes pre (str "--dry-run"))
  /\ (forall argv, main None argv = Exit1 /\ main (Some []) argv = Exit1)
  /\ strip_json (base ++ str ".json") = base
  /\ (~ str ".json" `suffix_of` name -> strip_json name = name).
Proof.
  intros Hkey Hpre. cbv zeta. unfold main.
  assert (not_string (Some key) = false) as ->
    by (by destruct key).
  split; [| split; [| split; [| split; [| split; [| split]]]]].
  - intros Hname. rewrite indexOf_first by done.
    rewrite (lookup_app_r pre) by lia.
    replace (length pre + 1 - length pre) with 1 by lia. cbn [lookup list_lookup].
    by destruct name.
  - rewrite indexOf_first by done.
    rewrite (lookup_app_r pre) by lia.
    replace (length pre + 1 - length pre) with 1 by lia. done.
  - rewrite indexOf_first by done.
    rewrite lookup_ge_None_2; [done |]. rewrite length_app. cbn. lia.
  - by rewrite indexOf_absent.
  - done.
  - unfold strip_json. rewrite decide_True by (by apply suffix_app_r).
    rewrite length_app, Nat.add_sub. apply take_app_length.
  - intros Hno. unfold strip_json. by rewrite decide_False.
Qed.

Lemma workflow_name_follows_first_flag_witness :
  main (Some (str "uk_1"))
    [str "node"; str "register.ts"; str "--workflow"; str "recurse-test.json";
     str "--dry-run"]
  = RegisterWorkflow (str "recurse-test") TestNet true
  /\ main (Some (str "uk_1"))
       [str "node"; str "register.ts"; str "--workflow"; []; str "--dry-run"]
     = RegisterKlados TestNet true.
Proof.
  destruct (workflow_name_follows_first_flag (str "uk_1")
              [str "node"; str "register.ts"] [str "--dry-run"]
              (str "recurse-test.json") (str "recurse-test"))
    as (Hnamed & Hunnamed & _).
  - done.
  - vm_compute. intros H.
    repeat (apply elem_of_cons in H as [H | H]; [discriminate H |]).
    by apply elem_of_nil in H.
  - split; [exact (Hnamed ltac:(done)) | exact Hunnamed].
Defined.

End MainFacts.
